(** * hls-proxy-warm: the warming engine, embedded and verified

    Shallow embedding of the Go sources (warmer.go, utils.go, http.go,
    config.go, the playlist parser and the daemon scheduler).

    Conventions.
    - A Go [string] is a sequence of bytes: Rocq's [string], one [ascii]
      per byte.  Runes are [Z].
    - Go [int], [rune] and [time.Duration] values are [Z].
    - Go maps are stdpp [gmap]s; a lookup of a missing key yields the
      zero value, as in Go.
    - Goroutines are modelled by interleaving: one atomic action of one
      goroutine per step. *)

From Stdlib Require Import ZArith Lia List Bool Ascii String Permutation.
From Stdlib Require Import Zbitwise SpecFloat.
From stdpp Require Import gmap strings.
Import ListNotations.

Local Open Scope string_scope.
Local Open Scope Z_scope.

(** ** Bytes and strings *)

Module GoString.

Definition byte_val (c : ascii) : Z := Z.of_N (N_of_ascii c).

Definition byte_of (z : Z) : ascii := ascii_of_N (Z.to_N z).

(** [len(s)] *)
Definition len (s : string) : Z := Z.of_nat (String.length s).

(** [strings.HasPrefix(s, prefix)] *)
Definition HasPrefix (s pre : string) : bool := String.prefix pre s.

(** Drop the first [n] bytes: [s[n:]]. *)
Fixpoint str_drop (n : nat) (s : string) : string :=
  match n, s with
  | O, _ => s
  | S k, String _ s' => str_drop k s'
  | S _, EmptyString => EmptyString
  end.

(** Keep the first [n] bytes: [s[:n]]. *)
Fixpoint str_take (n : nat) (s : string) : string :=
  match n, s with
  | O, _ => EmptyString
  | S k, String c s' => String c (str_take k s')
  | S _, EmptyString => EmptyString
  end.

(** [strings.Contains(s, substr)] *)
Fixpoint Contains (s sub : string) : bool :=
  String.prefix sub s ||
  match s with
  | EmptyString => false
  | String _ s' => Contains s' sub
  end.

(** [strings.IndexByte(s, c)], [None] for -1. *)
Fixpoint IndexByte (s : string) (c : ascii) : option nat :=
  match s with
  | EmptyString => None
  | String d s' =>
      if Ascii.eqb d c then Some O
      else match IndexByte s' c with
           | Some i => Some (S i)
           | None => None
           end
  end.

(** [strings.LastIndexByte(s, c)], [None] for -1. *)
Fixpoint LastIndexByte (s : string) (c : ascii) : option nat :=
  match s with
  | EmptyString => None
  | String d s' =>
      match LastIndexByte s' c with
      | Some i => Some (S i)
      | None => if Ascii.eqb d c then Some O else None
      end
  end.

(** Every byte of [s] satisfies [p]. *)
Fixpoint all_bytes (p : ascii -> bool) (s : string) : bool :=
  match s with
  | EmptyString => true
  | String c s' => p c && all_bytes p s'
  end.

(** Some byte of [s] satisfies [p]. *)
Fixpoint any_byte (p : ascii -> bool) (s : string) : bool :=
  match s with
  | EmptyString => false
  | String c s' => p c || any_byte p s'
  end.

(** The bytes of [s] that satisfy [p], in order. *)
Fixpoint filter_bytes (p : ascii -> bool) (s : string) : string :=
  match s with
  | EmptyString => EmptyString
  | String c s' =>
      if p c then String c (filter_bytes p s') else filter_bytes p s'
  end.

(** [strings.ContainsAny(s, chars)] for an ASCII [chars]. *)
Definition ContainsAny (s chars : string) : bool :=
  any_byte (fun c => any_byte (Ascii.eqb c) chars) s.

(** [strings.ReplaceAll(s, old, new)] for a non-empty [old]: the
    occurrences of [old] are found left to right without overlap.
    [skip] counts the bytes of a matched [old] still to be passed. *)
Fixpoint ReplaceAll_from (skip : nat) (s old new : string) : string :=
  match s with
  | EmptyString => EmptyString
  | String c s' =>
      match skip with
      | S k => ReplaceAll_from k s' old new
      | O =>
          if String.prefix old s
          then new ++ ReplaceAll_from (String.length old - 1) s' old new
          else String c (ReplaceAll_from O s' old new)
      end
  end.

Definition ReplaceAll (s old new : string) : string :=
  ReplaceAll_from O s old new.

(** ASCII lower-casing of one byte, and [strings.ToLower] on the ASCII
    bytes of a string (bytes above 127 are left as they are). *)
Definition lower_byte (c : ascii) : ascii :=
  let v := byte_val c in
  if (65 <=? v) && (v <=? 90) then byte_of (v + 32) else c.

Fixpoint ToLowerASCII (s : string) : string :=
  match s with
  | EmptyString => EmptyString
  | String c s' => String (lower_byte c) (ToLowerASCII s')
  end.

End GoString.

(** ** UTF-8 (package unicode/utf8) *)

Module utf8.
Import GoString.

Definition RuneError : Z := 65533.   (* U+FFFD *)
Definition RuneSelf : Z := 128.
Definition MaxRune : Z := 1114111.   (* U+10FFFF *)

Definition locb : Z := 128.  (* 0x80 *)
Definition hicb : Z := 191.  (* 0xBF *)

(** The [first] table of the decoder: for a leading byte, the length of
    the sequence and the accepted range of the second byte; [None] for
    a byte that cannot start a multi-byte sequence. *)
Definition first (b0 : Z) : option (nat * Z * Z) :=
  if b0 <? 194 then None                       (* 0x80..0xC1 *)
  else if b0 <? 224 then Some (2%nat, locb, hicb)      (* 0xC2..0xDF *)
  else if b0 =? 224 then Some (3%nat, 160, hicb)       (* 0xE0 *)
  else if b0 <? 237 then Some (3%nat, locb, hicb)      (* 0xE1..0xEC *)
  else if b0 =? 237 then Some (3%nat, locb, 159)       (* 0xED *)
  else if b0 <? 240 then Some (3%nat, locb, hicb)      (* 0xEE..0xEF *)
  else if b0 =? 240 then Some (4%nat, 144, hicb)       (* 0xF0 *)
  else if b0 <? 244 then Some (4%nat, locb, hicb)      (* 0xF1..0xF3 *)
  else if b0 =? 244 then Some (4%nat, locb, 143)       (* 0xF4 *)
  else None.                                   (* 0xF5..0xFF *)

Definition is_cont (b : Z) : bool := (locb <=? b) && (b <=? hicb).

(** [utf8.DecodeRuneInString]: the first rune of [s] and its width in
    bytes; [(RuneError, 1)] for an invalid or truncated sequence and
    [(RuneError, 0)] for the empty string. *)
Definition DecodeRuneInString (s : string) : Z * nat :=
  match s with
  | EmptyString => (RuneError, 0%nat)
  | String c0 r0 =>
      let s0 := byte_val c0 in
      if s0 <? RuneSelf then (s0, 1%nat)
      else
        match first s0 with
        | None => (RuneError, 1%nat)
        | Some (sz, lo, hi) =>
            match r0 with
            | EmptyString => (RuneError, 1%nat)
            | String c1 r1 =>
                let s1 := byte_val c1 in
                if (s1 <? lo) || (hi <? s1) then (RuneError, 1%nat)
                else if (sz <=? 2)%nat then
                  (Z.lor (Z.shiftl (Z.land s0 31) 6) (Z.land s1 63), 2%nat)
                else
                  match r1 with
                  | EmptyString => (RuneError, 1%nat)
                  | String c2 r2 =>
                      let s2 := byte_val c2 in
                      if negb (is_cont s2) then (RuneError, 1%nat)
                      else if (sz <=? 3)%nat then
                        (Z.lor (Z.lor (Z.shiftl (Z.land s0 15) 12)
                                      (Z.shiftl (Z.land s1 63) 6))
                               (Z.land s2 63), 3%nat)
                      else
                        match r2 with
                        | EmptyString => (RuneError, 1%nat)
                        | String c3 _ =>
                            let s3 := byte_val c3 in
                            if negb (is_cont s3) then (RuneError, 1%nat)
                            else
                              (Z.lor (Z.lor (Z.lor
                                 (Z.shiftl (Z.land s0 7) 18)
                                 (Z.shiftl (Z.land s1 63) 12))
                                 (Z.shiftl (Z.land s2 63) 6))
                                 (Z.land s3 63), 4%nat)
                        end
                  end
            end
        end
  end.

(** [utf8.AppendRune]: the UTF-8 encoding of a rune; surrogates and
    values out of range are encoded as [RuneError]. *)
Definition encode3 (r : Z) : string :=
  String (byte_of (Z.lor 224 (Z.shiftr r 12)))
 (String (byte_of (Z.lor 128 (Z.land (Z.shiftr r 6) 63)))
 (String (byte_of (Z.lor 128 (Z.land r 63))) EmptyString)).

Definition EncodeRune (r : Z) : string :=
  if (0 <=? r) && (r <? 128) then String (byte_of r) EmptyString
  else if (0 <=? r) && (r <? 2048) then
    String (byte_of (Z.lor 192 (Z.shiftr r 6)))
   (String (byte_of (Z.lor 128 (Z.land r 63))) EmptyString)
  else if (r <? 0) || (MaxRune <? r) || ((55296 <=? r) && (r <=? 57343))
  then encode3 RuneError
  else if r <? 65536 then encode3 r
  else
    String (byte_of (Z.lor 240 (Z.shiftr r 18)))
   (String (byte_of (Z.lor 128 (Z.land (Z.shiftr r 12) 63)))
   (String (byte_of (Z.lor 128 (Z.land (Z.shiftr r 6) 63)))
   (String (byte_of (Z.lor 128 (Z.land r 63))) EmptyString))).

End utf8.

(** ** utils.go *)

Import GoString.

(** [strings.Map(mapping, s)]: every rune of [s] is decoded, mapped, and
    the result encoded; a negative result drops the rune.  [skip] counts
    the bytes of the current rune still to be passed. *)
Fixpoint strings_Map_from (skip : nat) (mapping : Z -> Z) (s : string) : string :=
  match s with
  | EmptyString => EmptyString
  | String _ s' =>
      match skip with
      | S k => strings_Map_from k mapping s'
      | O =>
          let '(r, w) := utf8.DecodeRuneInString s in
          let m := mapping r in
          (if m <? 0 then EmptyString else utf8.EncodeRune m)
            ++ strings_Map_from (w - 1) mapping s'
      end
  end.

Definition strings_Map (mapping : Z -> Z) (s : string) : string :=
  strings_Map_from O mapping s.

(** The mapping function of [cleanString]:
    [(r >= 32 && r <= 126) || r == 9 || r == 10 || r == 13] keeps [r],
    everything else is removed. *)
Definition cleanRune (r : Z) : Z :=
  if ((32 <=? r) && (r <=? 126)) || (r =? 9) || (r =? 10) || (r =? 13)
  then r else -1.

(** [cleanString]: removes non-printable characters. *)
Definition cleanString (s : string) : string :=
  let s := ReplaceAll s (String zero EmptyString) "" in
  strings_Map cleanRune s.

(** A byte that [cleanString] lets through: printable ASCII, tab,
    newline or carriage return. *)
Definition printable (c : ascii) : bool :=
  let v := byte_val c in
  ((32 <=? v) && (v <=? 126)) || (v =? 9) || (v =? 10) || (v =? 13).

(** A byte of a non-ASCII rune. *)
Definition high_byte (c : ascii) : bool := 128 <=? byte_val c.

(** ** Library functions that are taken as given

    [strings.ToLower] lower-cases by the Unicode tables.  What is used
    of it is its name and its behaviour on ASCII text, where it turns
    the letters A-Z into a-z and leaves the rest alone. *)

Definition is_ascii (s : string) : bool :=
  all_bytes (fun c => byte_val c <? 128) s.

Class GoLib := {
  strings_ToLower : string -> string;
  strings_ToLower_ascii :
    forall s, is_ascii s = true -> strings_ToLower s = ToLowerASCII s
}.

(** The instance that lower-cases the ASCII letters only. *)
Definition ascii_lib : GoLib :=
  {| strings_ToLower := ToLowerASCII;
     strings_ToLower_ascii := fun s _ => eq_refl |}.

(** ** config.go *)

Definition defaultWorkers : Z := 10.
Definition defaultInterval : Z := 1000000000.          (* 1 * time.Second *)
Definition defaultTTL : Z := 300000000000.             (* 5 * time.Minute *)

(** [http.Header]: canonical header name to the values received. *)
Abbreviation Header := (gmap string (list string)).

(** An [error] value is represented by its text, [err.Error()]. *)
Abbreviation error := string (only parsing).

(** [CacheStatus] represents the status of a segment request. *)
Record CacheStatus := {
  URL : string;
  Hit : bool;
  StatusCode : Z;
  Headers : gmap string string;
  Error : option error;
  Duration : Z
}.

(** [WarmResult] represents the result of warming an M3U8 playlist. *)
Record WarmResult := {
  M3U8URL : string;
  TotalFiles : Z;
  CachedFiles : Z;
  Errors : list error;
  WDuration : Z;
  Details : list CacheStatus
}.

(** ** http.go *)

(** [textproto.CanonicalMIMEHeaderKey] on a header name made of letters,
    digits and hyphens: the first letter and every letter after a
    hyphen in upper case, the others in lower case. *)
Definition upper_byte (c : ascii) : ascii :=
  let v := byte_val c in
  if (97 <=? v) && (v <=? 122) then byte_of (v - 32) else c.

Fixpoint canonical_from (upper : bool) (s : string) : string :=
  match s with
  | EmptyString => EmptyString
  | String c s' =>
      String (if upper then upper_byte c else lower_byte c)
             (canonical_from (Ascii.eqb c "-"%char) s')
  end.

Definition CanonicalMIMEHeaderKey (s : string) : string :=
  canonical_from true s.

(** [Header.Get(key)]: the first value stored under the canonical form
    of [key], the empty string when there is none. *)
Definition Header_Get (h : Header) (key : string) : string :=
  match h !! CanonicalMIMEHeaderKey key with
  | Some (v :: _) => v
  | _ => ""
  end.

(** The outcome of [makeRequest] followed by [discardBody]. *)
Inductive HTTPResult :=
  | RequestError (msg : error)            (* [h.client.Do] failed *)
  | BodyError (msg : error)               (* [io.Copy] failed *)
  | ResponseOK (status : Z) (header : Header).

Definition cacheHeaders : list string :=
  [ "X-Cache"; "X-Cache-Status"; "X-Served-By"; "CF-Cache-Status";
    "X-Fastly-Cache"; "X-Varnish-Cache"; "Age" ].

Definition vendorHeaders : list string :=
  [ "X-Cache"; "X-Cache-Status"; "X-Served-By"; "CF-Cache-Status";
    "X-Fastly-Cache"; "X-Varnish-Cache" ].

Definition hitIndicators : list string := [ "hit"; "HIT"; "cached"; "CACHED" ].

Section Classifier.
Context {lib : GoLib}.

(** The inner loop of [detectCacheHit]: does [value] contain one of the
    indicators, both lower-cased? *)
Fixpoint hasIndicator (value : string) (indicators : list string) : bool :=
  match indicators with
  | [] => false
  | indicator :: rest =>
      if Contains (strings_ToLower value) (strings_ToLower indicator)
      then true
      else hasIndicator value rest
  end.

(** The outer loop of [detectCacheHit] over the header names. *)
Fixpoint scanCacheHeaders (h : Header) (names : list string) : bool :=
  match names with
  | [] => false
  | header :: rest =>
      let value := Header_Get h header in
      if negb (value =? "")%string && hasIndicator value hitIndicators
      then true
      else scanCacheHeaders h rest
  end.

(** [detectCacheHit] detects if a response was served from cache. *)
Definition detectCacheHit (h : Header) : bool :=
  if scanCacheHeaders h cacheHeaders then true
  else
    let age := Header_Get h "Age" in
    negb (age =? "")%string && negb (age =? "0")%string.

(** ** warmer.go: one segment *)

(** The [headers] snapshot built by [warmSegment]: the first value of
    every header that has one. *)
Definition firstValues (h : Header) : gmap string string :=
  omap (fun values => head values) h.

(** [warmSegment] warms a single segment.  [res] is what the network
    did with the request and [elapsed] is [time.Since(startTime)]. *)
Definition warmSegment (segmentURL : string) (res : HTTPResult) (elapsed : Z)
  : CacheStatus :=
  match res with
  | RequestError err | BodyError err =>
      {| URL := segmentURL; Hit := false; StatusCode := 0; Headers := ∅;
         Error := Some (cleanString err); Duration := elapsed |}
  | ResponseOK status header =>
      {| URL := segmentURL; Hit := detectCacheHit header;
         StatusCode := status; Headers := firstValues header;
         Error := None; Duration := elapsed |}
  end.

(** ** warmer.go: the worker pool of [warmSegments]

    The goroutines of one call are the caller, [maxWorkers] workers and
    the goroutine that closes [results].  One step is one channel
    operation or one finished request of one goroutine. *)

(** Where a worker stands in its loop. *)
Inductive wstate :=
  | WIdle                       (* at [for segmentURL := range jobs] *)
  | WBusy (segmentURL : string) (* inside [h.warmSegment(segmentURL)] *)
  | WSend (result : CacheStatus)(* at [results <- result] *)
  | WDone.                      (* left the loop, [wg.Done()] ran *)

Record pool := {
  pending : list string;        (* segments the caller has yet to send *)
  jobs : list string;           (* buffer of channel [jobs] *)
  jobsClosed : bool;            (* [close(jobs)] ran *)
  workers : list wstate;
  results : list CacheStatus;   (* buffer of channel [results] *)
  resultsClosed : bool;         (* [close(results)] ran *)
  allResults : list CacheStatus;
  returned : bool;              (* [return allResults] ran *)
  capacity : nat;               (* [len(segments)], of both channels *)
  cacheStats : gmap string CacheStatus;
  inflight : Z                  (* requests started and not yet finished *)
}.

(** The state after the loop that starts the workers: [maxWorkers]
    goroutines (none when [maxWorkers <= 0]), nothing sent yet. *)
Definition pool_init (maxWorkers : Z) (segments : list string)
    (stats : gmap string CacheStatus) : pool :=
  {| pending := segments; jobs := []; jobsClosed := false;
     workers := repeat WIdle (Z.to_nat maxWorkers);
     results := []; resultsClosed := false; allResults := [];
     returned := false; capacity := length segments;
     cacheStats := stats; inflight := 0 |}.

Inductive action :=
  | ASend                  (* caller: [jobs <- segment] *)
  | ACloseJobs             (* caller: [close(jobs)] *)
  | ATake (i : nat)        (* worker i receives a job and starts the request *)
  | AFinish (i : nat) (res : HTTPResult) (elapsed : Z)
                           (* worker i: [warmSegment] returns *)
  | AEmit (i : nat)        (* worker i: [results <- result] *)
  | AExit (i : nat)        (* worker i: [jobs] closed and drained *)
  | ACloseResults          (* [wg.Wait()] returned, [close(results)] *)
  | ACollect               (* caller: one iteration of [range results] *)
  | AReturn.               (* caller: [results] closed and drained *)

Definition set_worker (i : nat) (w : wstate) (p : pool) : list wstate :=
  <[i := w]> (workers p).

Definition is_done (w : wstate) : bool :=
  match w with WDone => true | _ => false end.

Definition is_busy (w : wstate) : bool :=
  match w with WBusy _ => true | _ => false end.

(** The number of workers inside [warmSegment]. *)
Definition busy_count (ws : list wstate) : Z :=
  Z.of_nat (length (List.filter is_busy ws)).

(** One step; [None] when the goroutine cannot move (it is blocked, or
    it is not at that point of its code). *)
Definition pool_step (a : action) (p : pool) : option pool :=
  if returned p then None else
  match a with
  | ASend =>
      match pending p with
      | segment :: rest =>
          if (length (jobs p) <? capacity p)%nat
          then Some {| pending := rest; jobs := jobs p ++ [segment];
                       jobsClosed := jobsClosed p; workers := workers p;
                       results := results p; resultsClosed := resultsClosed p;
                       allResults := allResults p; returned := returned p;
                       capacity := capacity p; cacheStats := cacheStats p;
                       inflight := inflight p |}
          else None
      | [] => None
      end
  | ACloseJobs =>
      match pending p with
      | [] =>
          if jobsClosed p then None
          else Some {| pending := pending p; jobs := jobs p;
                       jobsClosed := true; workers := workers p;
                       results := results p; resultsClosed := resultsClosed p;
                       allResults := allResults p; returned := returned p;
                       capacity := capacity p; cacheStats := cacheStats p;
                       inflight := inflight p |}
      | _ :: _ => None
      end
  | ATake i =>
      match workers p !! i, jobs p with
      | Some WIdle, segmentURL :: rest =>
          Some {| pending := pending p; jobs := rest;
                  jobsClosed := jobsClosed p;
                  workers := set_worker i (WBusy segmentURL) p;
                  results := results p; resultsClosed := resultsClosed p;
                  allResults := allResults p; returned := returned p;
                  capacity := capacity p; cacheStats := cacheStats p;
                  inflight := inflight p + 1 |}
      | _, _ => None
      end
  | AFinish i res elapsed =>
      match workers p !! i with
      | Some (WBusy segmentURL) =>
          let status := warmSegment segmentURL res elapsed in
          Some {| pending := pending p; jobs := jobs p;
                  jobsClosed := jobsClosed p;
                  workers := set_worker i (WSend status) p;
                  results := results p; resultsClosed := resultsClosed p;
                  allResults := allResults p; returned := returned p;
                  capacity := capacity p;
                  cacheStats :=
                    match Error status with
                    | None => <[segmentURL := status]> (cacheStats p)
                    | Some _ => cacheStats p
                    end;
                  inflight := inflight p - 1 |}
      | _ => None
      end
  | AEmit i =>
      match workers p !! i with
      | Some (WSend result) =>
          if (length (results p) <? capacity p)%nat
          then Some {| pending := pending p; jobs := jobs p;
                       jobsClosed := jobsClosed p;
                       workers := set_worker i WIdle p;
                       results := results p ++ [result];
                       resultsClosed := resultsClosed p;
                       allResults := allResults p; returned := returned p;
                       capacity := capacity p; cacheStats := cacheStats p;
                       inflight := inflight p |}
          else None
      | _ => None
      end
  | AExit i =>
      match workers p !! i, jobs p with
      | Some WIdle, [] =>
          if jobsClosed p
          then Some {| pending := pending p; jobs := jobs p;
                       jobsClosed := jobsClosed p;
                       workers := set_worker i WDone p;
                       results := results p; resultsClosed := resultsClosed p;
                       allResults := allResults p; returned := returned p;
                       capacity := capacity p; cacheStats := cacheStats p;
                       inflight := inflight p |}
          else None
      | _, _ => None
      end
  | ACloseResults =>
      if jobsClosed p && negb (resultsClosed p) && forallb is_done (workers p)
      then Some {| pending := pending p; jobs := jobs p;
                   jobsClosed := jobsClosed p; workers := workers p;
                   results := results p; resultsClosed := true;
                   allResults := allResults p; returned := returned p;
                   capacity := capacity p; cacheStats := cacheStats p;
                   inflight := inflight p |}
      else None
  | ACollect =>
      match results p with
      | result :: rest =>
          if jobsClosed p
          then Some {| pending := pending p; jobs := jobs p;
                       jobsClosed := jobsClosed p; workers := workers p;
                       results := rest; resultsClosed := resultsClosed p;
                       allResults := allResults p ++ [result];
                       returned := returned p;
                       capacity := capacity p; cacheStats := cacheStats p;
                       inflight := inflight p |}
          else None
      | [] => None
      end
  | AReturn =>
      match results p with
      | [] =>
          if jobsClosed p && resultsClosed p
          then Some {| pending := pending p; jobs := jobs p;
                       jobsClosed := jobsClosed p; workers := workers p;
                       results := results p; resultsClosed := resultsClosed p;
                       allResults := allResults p; returned := true;
                       capacity := capacity p; cacheStats := cacheStats p;
                       inflight := inflight p |}
          else None
      | _ :: _ => None
      end
  end.

(** A schedule is the order in which the goroutines move. *)
Fixpoint pool_run (schedule : list action) (p : pool) : option pool :=
  match schedule with
  | [] => Some p
  | a :: rest =>
      match pool_step a p with
      | Some p' => pool_run rest p'
      | None => None
      end
  end.

(** [warmSegments] under a schedule: the slice it returns, when the
    schedule takes the call to its [return]. *)
Definition warmSegments (maxWorkers : Z) (segments : list string)
    (stats : gmap string CacheStatus) (schedule : list action)
  : option (list CacheStatus) :=
  match pool_run schedule (pool_init maxWorkers segments stats) with
  | Some p => if returned p then Some (allResults p) else None
  | None => None
  end.

End Classifier.

(** A response carries the header line [name: value]. *)
Definition carries (h : Header) (name value : string) : Prop :=
  exists values, h !! CanonicalMIMEHeaderKey name = Some values
                 /\ In value values.

(** A response carries no header of the given names. *)
Definition carries_none (h : Header) (names : list string) : Prop :=
  forall name, In name names -> h !! CanonicalMIMEHeaderKey name = None.

(** *** Ghost definitions for the pool: what a worker holds, and the
    measure that bounds the length of a run. *)

(** The segment a worker is responsible for at the moment. *)
Definition held (w : wstate) : list string :=
  match w with
  | WBusy segmentURL => [segmentURL]
  | WSend result => [URL result]
  | WIdle | WDone => []
  end.

Definition held_all (ws : list wstate) : list string := flat_map held ws.

Definition weight (w : wstate) : nat :=
  match w with
  | WBusy _ => 4
  | WSend _ => 3
  | WIdle => 1
  | WDone => 0
  end.

Fixpoint wsum (f : wstate -> nat) (ws : list wstate) : nat :=
  match ws with
  | [] => 0
  | w :: rest => f w + wsum f rest
  end.

Definition flag_cost (b : bool) : nat := if b then 0 else 1.

Definition pool_measure (p : pool) : nat :=
  5 * length (pending p) + 4 * length (jobs p) + wsum weight (workers p)
  + length (results p) + flag_cost (jobsClosed p)
  + flag_cost (resultsClosed p) + flag_cost (returned p).

(** How often [u] occurs among the segments still in the pool. *)
Definition occurrences (u : string) (p : pool) : nat :=
  count_occ string_dec (pending p) u + count_occ string_dec (jobs p) u
  + count_occ string_dec (held_all (workers p)) u
  + count_occ string_dec (map URL (results p)) u
  + count_occ string_dec (map URL (allResults p)) u.

(** The invariant of a call [warmSegments(segments)] with [maxWorkers]
    workers. *)
Record pool_inv (maxWorkers : Z) (segments : list string) (p : pool) : Prop := {
  inv_occ : forall u, occurrences u p = count_occ string_dec segments u;
  inv_len : (length (pending p) + length (jobs p) + length (held_all (workers p))
             + length (results p) + length (allResults p)
             = length segments)%nat;
  inv_cap : capacity p = length segments;
  inv_workers : length (workers p) = Z.to_nat maxWorkers;
  inv_closed : jobsClosed p = true -> pending p = [];
  inv_done : (exists i, workers p !! i = Some WDone) ->
             jobsClosed p = true /\ jobs p = [];
  inv_rclosed : resultsClosed p = true ->
                jobsClosed p = true /\ forallb is_done (workers p) = true;
  inv_returned : returned p = true ->
                 results p = [] /\ resultsClosed p = true;
  inv_inflight : inflight p = busy_count (workers p)
}.

(** ** warmer.go and the daemon: the activity flag

    [streamActive] is the map guarded by [streamMu]; every function
    below runs with the lock held, so it is one atomic step.  [cycles]
    is ghost state: the streams whose warm cycle goroutine is running. *)

Record daemon := {
  streamActive : gmap string bool;
  cycles : list string
}.

Definition daemon_init : daemon := {| streamActive := ∅; cycles := [] |}.

(** [h.streamActive[stream]]: a missing key reads as [false]. *)
Definition active (d : daemon) (stream : string) : bool :=
  match streamActive d !! stream with
  | Some b => b
  | None => false
  end.

(** [beginStreamProcessing] marks a stream as being processed if it is
    not already; [true] when processing should continue. *)
Definition beginStreamProcessing (stream : string) (d : daemon) : bool * daemon :=
  if active d stream then (false, d)
  else (true, {| streamActive := <[stream := true]> (streamActive d);
                 cycles := cycles d |}).

(** [endStreamProcessing] clears the processing flag. *)
Definition endStreamProcessing (stream : string) (d : daemon) : daemon :=
  {| streamActive := delete stream (streamActive d); cycles := cycles d |}.

(** [scheduleStreamWarm] triggers a warm cycle in the background if no
    other cycle is running: the [go func] adds a running cycle. *)
Definition scheduleStreamWarm (m3u8URL : string) (d : daemon) : daemon :=
  let '(ok, d') := beginStreamProcessing m3u8URL d in
  if negb ok then d'
  else {| streamActive := streamActive d'; cycles := m3u8URL :: cycles d' |}.

(** Remove one running cycle of [stream]. *)
Fixpoint remove_cycle (stream : string) (l : list string) : list string :=
  match l with
  | [] => []
  | x :: rest =>
      if String.eqb x stream then rest else x :: remove_cycle stream rest
  end.

(** What happens in the daemon: a tick of a stream's ticker (or the
    initial kick-off), and the end of a running cycle, whose
    [warmStreamOnce] succeeded ([ok = true]) or failed. *)
Inductive event :=
  | Tick (stream : string)
  | Complete (stream : string) (ok : bool).

(** One event; [None] when it cannot happen (no such cycle runs). *)
Definition daemon_step (e : event) (d : daemon) : option daemon :=
  match e with
  | Tick stream => Some (scheduleStreamWarm stream d)
  | Complete stream ok =>
      if existsb (String.eqb stream) (cycles d)
      then
        (* [defer h.endStreamProcessing(m3u8URL)] runs on every return *)
        let d' := endStreamProcessing stream d in
        Some {| streamActive := streamActive d';
                cycles := remove_cycle stream (cycles d') |}
      else None
  end.

Fixpoint daemon_run (events : list event) (d : daemon) : option daemon :=
  match events with
  | [] => Some d
  | e :: rest =>
      match daemon_step e d with
      | Some d' => daemon_run rest d'
      | None => None
      end
  end.

(** The number of warm cycles of [stream] that are running. *)
Definition running (d : daemon) (stream : string) : nat :=
  count_occ string_dec (cycles d) stream.

(** The invariant of the daemon: a stream's flag is set exactly while
    one cycle of it runs, and never more than one runs. *)
Definition flag_counts_cycle (d : daemon) : Prop :=
  forall stream, running d stream = if active d stream then 1%nat else 0%nat.

(** ** The daemon tick: [warmStreamOnce]

    Times are nanoseconds as [Z]; [time.Since(last)] is the current
    time minus [last] (the saturation of [Duration] at 2^63 ns, some
    292 years, is not modelled).  The wall clock is read several times
    during a tick: [clock k] is the [k]-th reading. *)

Definition Clock := nat -> Z.

(** A tick that runs at the single instant [now]. *)
Definition tick_at (now : Z) : Clock := fun _ => now.

(** The first loop of [warmStreamOnce]: filter out already processed
    segments.  [k] counts the clock readings so far. *)
Fixpoint selectNew (clock : Clock) (processedTTL : Z) (segments : list string)
    (newSegments : list string) (processedURLs : gmap string Z) (k : nat)
  : list string * gmap string Z * nat :=
  match segments with
  | [] => (newSegments, processedURLs, k)
  | segment :: rest =>
      match processedURLs !! segment with
      | None =>
          (* [!seen]: [time.Since] is not evaluated *)
          selectNew clock processedTTL rest (newSegments ++ [segment])%list
            (<[segment := clock k]> processedURLs) (S k)
      | Some last =>
          if clock k - last >? processedTTL
          then selectNew clock processedTTL rest (newSegments ++ [segment])%list
                 (<[segment := clock (S k)]> processedURLs) (S (S k))
          else selectNew clock processedTTL rest newSegments processedURLs (S k)
      end
  end.

(** The loop over the last segments: [segments[start:]]. *)
Fixpoint rewarmTail (clock : Clock) (tail : list string)
    (newSegments : list string) (included : gset string)
    (processedURLs : gmap string Z) (k : nat)
  : list string * gmap string Z * nat :=
  match tail with
  | [] => (newSegments, processedURLs, k)
  | s :: rest =>
      let '(newSegments', included') :=
        if decide (s ∈ included) then (newSegments, included)
        else ((newSegments ++ [s])%list, {[ s ]} ∪ included) in
      rewarmTail clock rest newSegments' included'
        (<[s := clock k]> processedURLs) (S k)
  end.

(** The segments the re-warm loop runs over: the last [rewarmLast] of
    the playlist, all of it when it is not longer than that. *)
Definition lastSegments (rewarmLast : Z) (segments : list string) : list string :=
  let n := Z.of_nat (length segments) in
  let start := if n >? rewarmLast then n - rewarmLast else 0 in
  List.skipn (Z.to_nat start) segments.

(** The selection of [warmStreamOnce]: the fetch set, the ledger after
    the tick and the number of clock readings. *)
Definition selectSegments (clock : Clock) (processedTTL rewarmLast : Z)
    (segments : list string) (processedURLs : gmap string Z)
  : list string * gmap string Z * nat :=
  let '(newSegments, processed, k) :=
    selectNew clock processedTTL segments [] processedURLs 0 in
  if rewarmLast >? 0
  then rewarmTail clock (lastSegments rewarmLast segments)
         newSegments (list_to_set newSegments) processed k
  else (newSegments, processed, k).

(** The "new" set of a tick (absent from the ledger or expired), its
    fetch set and the ledger it leaves. *)
Definition newSet (clock : Clock) (processedTTL : Z)
    (segments : list string) (processedURLs : gmap string Z) : list string :=
  (selectNew clock processedTTL segments [] processedURLs 0).1.1.

Definition fetchSet (clock : Clock) (processedTTL rewarmLast : Z)
    (segments : list string) (processedURLs : gmap string Z) : list string :=
  (selectSegments clock processedTTL rewarmLast segments processedURLs).1.1.

Definition ledgerAfter (clock : Clock) (processedTTL rewarmLast : Z)
    (segments : list string) (processedURLs : gmap string Z) : gmap string Z :=
  (selectSegments clock processedTTL rewarmLast segments processedURLs).1.2.

(** What a tick does after the selection. *)
Inductive TickOutcome :=
  | TickParseError (logged : string)    (* the text given to [log.Printf] *)
  | TickNoNew                           (* "No new segments found" *)
  | TickFetch (newSegments : list string).  (* passed to [warmSegments] *)

(** [warmStreamOnce] up to the call of [warmSegments]; [parsed] is the
    result of [parseM3U8]. *)
Definition warmStreamOnce (clock : Clock) (processedTTL rewarmLast : Z)
    (parsed : list string * option error) (processedURLs : gmap string Z)
  : TickOutcome * gmap string Z :=
  match parsed with
  | (_, Some err) => (TickParseError (cleanString err), processedURLs)
  | (segments, None) =>
      let '(newSegments, processed, _) :=
        selectSegments clock processedTTL rewarmLast segments processedURLs in
      match newSegments with
      | [] => (TickNoNew, processed)
      | _ :: _ => (TickFetch newSegments, processed)
      end
  end.

(** The summary of a tick over the results of [warmSegments]: hits,
    errors and, in quiet mode, the sanitized error lines. *)
Fixpoint tickSummary (quiet : bool) (results : list CacheStatus)
  : Z * Z * list string :=
  match results with
  | [] => (0, 0, [])
  | r :: rest =>
      let '(hitCount, errorCount, errorDetails) := tickSummary quiet rest in
      match Error r with
      | Some err =>
          (hitCount, errorCount + 1,
           if quiet
           then (URL r ++ ": " ++ cleanString err)%string :: errorDetails
           else errorDetails)
      | None =>
          if Hit r then (hitCount + 1, errorCount, errorDetails)
          else (hitCount, errorCount, errorDetails)
      end
  end.

(** ** Package net/url

    The parser and resolver of the Go standard library, which the
    program calls through [url.Parse], [URL.ResolveReference] and
    [URL.String].  The model follows the library's algorithm (generic
    syntax of RFC 3986, reference resolution of its section 5.2).  Not
    modelled: the special treatment of IPv6 zone identifiers in a
    bracketed host.  A parse error is represented by its reason. *)

Module url.

Record Userinfo := {
  username : string;
  password : string;
  passwordSet : bool
}.

Record URL := {
  Scheme : string;
  Opaque : string;
  User : option Userinfo;
  Host : string;
  Path : string;
  RawPath : string;
  OmitHost : bool;
  ForceQuery : bool;
  RawQuery : string;
  Fragment : string;
  RawFragment : string
}.

Definition empty : URL :=
  {| Scheme := ""; Opaque := ""; User := None; Host := ""; Path := "";
     RawPath := ""; OmitHost := false; ForceQuery := false; RawQuery := "";
     Fragment := ""; RawFragment := "" |}.

Inductive encoding :=
  | encodePath | encodeHost | encodeUserPassword | encodeFragment.

Definition is_alnum (v : Z) : bool :=
  ((97 <=? v) && (v <=? 122)) || ((65 <=? v) && (v <=? 90))
  || ((48 <=? v) && (v <=? 57)).

Definition byte_in (c : ascii) (set : string) : bool :=
  any_byte (Ascii.eqb c) set.

Definition dquote : ascii := byte_of 34.
Definition squote : ascii := byte_of 39.

(** [shouldEscape(c, mode)] *)
Definition shouldEscape (c : ascii) (mode : encoding) : bool :=
  if is_alnum (byte_val c) then false
  else if match mode with encodeHost => true | _ => false end
          && (byte_in c "!$&()*+,;=:[]<>" || Ascii.eqb c squote
              || Ascii.eqb c dquote)
  then false
  else if byte_in c "-_.~" then false
  else if byte_in c "$&+,/:;=?@" then
    match mode with
    | encodePath => Ascii.eqb c "?"%char
    | encodeUserPassword => byte_in c "@/?:"
    | encodeFragment => false
    | encodeHost => true
    end
  else if match mode with encodeFragment => true | _ => false end
          && byte_in c "!()*"
  then false
  else true.

Definition ishex (c : ascii) : bool :=
  let v := byte_val c in
  ((48 <=? v) && (v <=? 57)) || ((97 <=? v) && (v <=? 102))
  || ((65 <=? v) && (v <=? 70)).

Definition unhex (c : ascii) : Z :=
  let v := byte_val c in
  if (48 <=? v) && (v <=? 57) then v - 48
  else if (97 <=? v) && (v <=? 102) then v - 97 + 10
  else if (65 <=? v) && (v <=? 70) then v - 65 + 10
  else 0.

Definition upperhex (v : Z) : ascii :=
  if v <? 10 then byte_of (48 + v) else byte_of (65 + v - 10).

(** [unescape(s, mode)]: percent-decoding; [None] for a malformed
    escape or, in a host, a character that may not stand there. *)
Fixpoint unescape_from (skip : nat) (s : string) (mode : encoding)
  : option string :=
  match s with
  | EmptyString => Some EmptyString
  | String c s' =>
      match skip with
      | S k => unescape_from k s' mode
      | O =>
          if Ascii.eqb c "%"%char then
            match s' with
            | String h1 (String h2 _) =>
                if ishex h1 && ishex h2 then
                  if match mode with encodeHost => true | _ => false end
                     && (unhex h1 <? 8)
                     && negb (String.prefix "%25" s)
                  then None
                  else
                    match unescape_from 2 s' mode with
                    | Some r =>
                        Some (String (byte_of (unhex h1 * 16 + unhex h2)) r)
                    | None => None
                    end
                else None
            | _ => None
            end
          else if match mode with encodeHost => true | _ => false end
                  && (byte_val c <? 128) && shouldEscape c encodeHost
          then None
          else
            match unescape_from 0 s' mode with
            | Some r => Some (String c r)
            | None => None
            end
      end
  end.

Definition unescape (s : string) (mode : encoding) : option string :=
  unescape_from 0 s mode.

(** [escape(s, mode)] *)
Fixpoint escape (s : string) (mode : encoding) : string :=
  match s with
  | EmptyString => EmptyString
  | String c s' =>
      if shouldEscape c mode
      then String "%"%char
             (String (upperhex (Z.shiftr (byte_val c) 4))
                (String (upperhex (Z.land (byte_val c) 15)) (escape s' mode)))
      else String c (escape s' mode)
  end.

(** [validEncoded(s, mode)] *)
Definition validEncoded (s : string) (mode : encoding) : bool :=
  all_bytes (fun c =>
               byte_in c "!$&()*+,;=:@[]%" || Ascii.eqb c squote
               || negb (shouldEscape c mode)) s.

(** [strings.Cut(s, sep)] for a one-byte separator. *)
Definition Cut (s : string) (sep : ascii) : string * string * bool :=
  match IndexByte s sep with
  | Some i => (str_take i s, str_drop (S i) s, true)
  | None => (s, EmptyString, false)
  end.

Fixpoint count_byte (s : string) (c : ascii) : nat :=
  match s with
  | EmptyString => O
  | String d s' => (if Ascii.eqb d c then 1 else 0) + count_byte s' c
  end.

Fixpoint last_byte (s : string) : option ascii :=
  match s with
  | EmptyString => None
  | String c EmptyString => Some c
  | String _ s' => last_byte s'
  end.

(** [stringContainsCTLByte] *)
Definition stringContainsCTLByte (s : string) : bool :=
  any_byte (fun c => (byte_val c <? 32) || (byte_val c =? 127)) s.

Definition is_letter (v : Z) : bool :=
  ((97 <=? v) && (v <=? 122)) || ((65 <=? v) && (v <=? 90)).

(** [getScheme]: [inl (scheme, rest)], or [inr reason]. *)
Fixpoint getScheme_from (i : nat) (whole s : string)
  : (string * string) + string :=
  match s with
  | EmptyString => inl (EmptyString, whole)
  | String c s' =>
      let v := byte_val c in
      if is_letter v then getScheme_from (S i) whole s'
      else if ((48 <=? v) && (v <=? 57)) || byte_in c "+-." then
        match i with
        | O => inl (EmptyString, whole)
        | S _ => getScheme_from (S i) whole s'
        end
      else if Ascii.eqb c ":"%char then
        match i with
        | O => inr "missing protocol scheme"
        | S _ => inl (str_take i whole, s')
        end
      else inl (EmptyString, whole)
  end.

Definition getScheme (rawURL : string) : (string * string) + string :=
  getScheme_from 0 rawURL rawURL.

(** [validOptionalPort]: empty, or a colon and digits. *)
Definition validOptionalPort (port : string) : bool :=
  match port with
  | EmptyString => true
  | String c rest =>
      Ascii.eqb c ":"%char
      && all_bytes (fun d => (48 <=? byte_val d) && (byte_val d <=? 57)) rest
  end.

(** [parseHost] *)
Definition parseHost (host : string) : string + string :=
  let port_ok :=
    if String.prefix "[" host then
      match LastIndexByte host "]"%char with
      | None => inr "missing ']' in host"
      | Some i =>
          if validOptionalPort (str_drop (S i) host) then inl tt
          else inr "invalid port after host"
      end
    else
      match LastIndexByte host ":"%char with
      | Some i =>
          if validOptionalPort (str_drop i host) then inl tt
          else inr "invalid port after host"
      | None => inl tt
      end in
  match port_ok with
  | inr e => inr e
  | inl _ =>
      match unescape host encodeHost with
      | Some h => inl h
      | None => inr "invalid URL escape or invalid character in host name"
      end
  end.

(** [validUserinfo] *)
Definition validUserinfo (s : string) : bool :=
  all_bytes (fun c =>
               is_alnum (byte_val c) || byte_in c "-._:~!$&()*+,;=%@"
               || Ascii.eqb c squote) s.

(** [parseAuthority] *)
Definition parseAuthority (authority : string)
  : (option Userinfo * string) + string :=
  match LastIndexByte authority "@"%char with
  | None =>
      match parseHost authority with
      | inl host => inl (None, host)
      | inr e => inr e
      end
  | Some i =>
      match parseHost (str_drop (S i) authority) with
      | inr e => inr e
      | inl host =>
          let userinfo := str_take i authority in
          if negb (validUserinfo userinfo) then inr "net/url: invalid userinfo"
          else
            let '(name, pass, hasPass) := Cut userinfo ":"%char in
            match unescape name encodeUserPassword,
                  unescape pass encodeUserPassword with
            | Some name', Some pass' =>
                inl (Some {| username := name'; password := pass';
                             passwordSet := hasPass |}, host)
            | _, _ => inr "invalid URL escape"
            end
      end
  end.

(** [URL.setPath]: the path and, when it is not the default escaping
    of the path, the raw path. *)
Definition setPath (u : URL) (p : string) : option URL :=
  match unescape p encodePath with
  | None => None
  | Some path =>
      Some {| Scheme := Scheme u; Opaque := Opaque u; User := User u;
              Host := Host u; Path := path;
              RawPath := if String.eqb p (escape path encodePath)
                         then EmptyString else p;
              OmitHost := OmitHost u; ForceQuery := ForceQuery u;
              RawQuery := RawQuery u; Fragment := Fragment u;
              RawFragment := RawFragment u |}
  end.

(** [URL.setFragment] *)
Definition setFragment (u : URL) (f : string) : option URL :=
  match unescape f encodeFragment with
  | None => None
  | Some frag =>
      Some {| Scheme := Scheme u; Opaque := Opaque u; User := User u;
              Host := Host u; Path := Path u; RawPath := RawPath u;
              OmitHost := OmitHost u; ForceQuery := ForceQuery u;
              RawQuery := RawQuery u; Fragment := frag;
              RawFragment := if String.eqb f (escape frag encodeFragment)
                             then EmptyString else f |}
  end.

(** [parse(rawURL, viaRequest = false)]: a URL without fragment. *)
Definition parse (rawURL : string) : URL + string :=
  if stringContainsCTLByte rawURL
  then inr "net/url: invalid control character in URL"
  else if String.eqb rawURL "*" then
    inl {| Scheme := ""; Opaque := ""; User := None; Host := "";
           Path := "*"; RawPath := ""; OmitHost := false;
           ForceQuery := false; RawQuery := ""; Fragment := "";
           RawFragment := "" |}
  else
    match getScheme rawURL with
    | inr e => inr e
    | inl (scheme0, rest0) =>
        let scheme := ToLowerASCII scheme0 in
        let '(rest, rawQuery, forceQuery) :=
          if match last_byte rest0 with
             | Some c => Ascii.eqb c "?"%char
             | None => false
             end && (count_byte rest0 "?"%char =? 1)%nat
          then (str_take (String.length rest0 - 1) rest0, EmptyString, true)
          else let '(r, q, _) := Cut rest0 "?"%char in (r, q, false) in
        let rooted := String.prefix "/" rest in
        if negb rooted && negb (String.eqb scheme "") then
          (* a rootless path after a scheme is opaque *)
          inl {| Scheme := scheme; Opaque := rest; User := None; Host := "";
                 Path := ""; RawPath := ""; OmitHost := false;
                 ForceQuery := forceQuery; RawQuery := rawQuery;
                 Fragment := ""; RawFragment := "" |}
        else if negb rooted
                && Contains (fst (fst (Cut rest "/"%char))) ":"
        then inr "first path segment in URL cannot contain colon"
        else
          let with_authority :=
            (negb (String.eqb scheme "") || negb (String.prefix "///" rest))
            && String.prefix "//" rest in
          let authority_rest :=
            if with_authority then
              let a := str_drop 2 rest in
              match IndexByte a "/"%char with
              | Some i => (str_take i a, str_drop i a)
              | None => (a, EmptyString)
              end
            else (EmptyString, rest) in
          match (if with_authority then parseAuthority (fst authority_rest)
                 else inl (None, EmptyString)) with
          | inr e => inr e
          | inl (user, host) =>
              match setPath
                      {| Scheme := scheme; Opaque := ""; User := user;
                         Host := host; Path := ""; RawPath := "";
                         OmitHost := negb with_authority
                                     && negb (String.eqb scheme "")
                                     && String.prefix "/" rest;
                         ForceQuery := forceQuery; RawQuery := rawQuery;
                         Fragment := ""; RawFragment := "" |}
                      (snd authority_rest) with
              | Some u => inl u
              | None => inr "invalid URL escape"
              end
          end
    end.

(** [url.Parse] *)
Definition Parse (rawURL : string) : URL + string :=
  let '(u, frag, _) := Cut rawURL "#"%char in
  match parse u with
  | inr e => inr e
  | inl parsed =>
      if String.eqb frag "" then inl parsed
      else match setFragment parsed frag with
           | Some parsed' => inl parsed'
           | None => inr "invalid URL escape"
           end
  end.

(** [URL.EscapedPath] *)
Definition EscapedPath (u : URL) : string :=
  if negb (String.eqb (RawPath u) "") && validEncoded (RawPath u) encodePath
     && match unescape (RawPath u) encodePath with
        | Some p => String.eqb p (Path u)
        | None => false
        end
  then RawPath u
  else if String.eqb (Path u) "*" then "*"
  else escape (Path u) encodePath.

(** [URL.EscapedFragment] *)
Definition EscapedFragment (u : URL) : string :=
  if negb (String.eqb (RawFragment u) "")
     && validEncoded (RawFragment u) encodeFragment
     && match unescape (RawFragment u) encodeFragment with
        | Some f => String.eqb f (Fragment u)
        | None => false
        end
  then RawFragment u
  else escape (Fragment u) encodeFragment.

(** The path elements between slashes. *)
Fixpoint split_slash (cur s : string) : list string :=
  match s with
  | EmptyString => [cur]
  | String c s' =>
      if Ascii.eqb c "/"%char then cur :: split_slash EmptyString s'
      else split_slash (cur ++ String c EmptyString) s'
  end.

(** The loop of [resolvePath] over the elements: [dst] is the text
    written after the leading slash, [first] the flag of the source. *)
Fixpoint resolve_elems (elems : list string) (dst : string) (first : bool)
  : string :=
  match elems with
  | [] => dst
  | elem :: rest =>
      if String.eqb elem "." then resolve_elems rest dst false
      else if String.eqb elem ".." then
        match LastIndexByte dst "/"%char with
        | None => resolve_elems rest EmptyString true
        | Some i => resolve_elems rest (str_take i dst) first
        end
      else
        resolve_elems rest
          (dst ++ (if first then EmptyString else "/") ++ elem) false
  end.

(** [resolvePath(base, ref)]: RFC 3986 sections 5.2.2 to 5.2.4. *)
Definition resolvePath (base ref : string) : string :=
  let full :=
    match ref with
    | EmptyString => base
    | String c _ =>
        if Ascii.eqb c "/"%char then ref
        else
          match LastIndexByte base "/"%char with
          | Some i => str_take (S i) base ++ ref
          | None => ref
          end
    end in
  if String.eqb full "" then EmptyString
  else
    let elems := split_slash EmptyString full in
    let dst := resolve_elems elems EmptyString true in
    let last := List.last elems EmptyString in
    let r := "/" ++ dst
             ++ (if String.eqb last "." || String.eqb last ".."
                 then "/" else EmptyString) in
    match r with
    | String _ (String c2 rest) =>
        if Ascii.eqb c2 "/"%char then String c2 rest else r
    | _ => r
    end.

Definition with_path (u : URL) (p : string) : URL :=
  match setPath u p with
  | Some u' => u'
  | None => u
  end.

(** [URL.ResolveReference] *)
Definition ResolveReference (u ref : URL) : URL :=
  let scheme := if String.eqb (Scheme ref) "" then Scheme u else Scheme ref in
  let url0 :=
    {| Scheme := scheme; Opaque := Opaque ref; User := User ref;
       Host := Host ref; Path := Path ref; RawPath := RawPath ref;
       OmitHost := OmitHost ref; ForceQuery := ForceQuery ref;
       RawQuery := RawQuery ref; Fragment := Fragment ref;
       RawFragment := RawFragment ref |} in
  if negb (String.eqb (Scheme ref) "") || negb (String.eqb (Host ref) "")
     || match User ref with Some _ => true | None => false end
  then with_path url0 (resolvePath (EscapedPath ref) EmptyString)
  else if negb (String.eqb (Opaque ref) "") then
    {| Scheme := scheme; Opaque := Opaque ref; User := None; Host := "";
       Path := ""; RawPath := RawPath ref; OmitHost := OmitHost ref;
       ForceQuery := ForceQuery ref; RawQuery := RawQuery ref;
       Fragment := Fragment ref; RawFragment := RawFragment ref |}
  else
    let inherit_query :=
      String.eqb (Path ref) "" && negb (ForceQuery ref)
      && String.eqb (RawQuery ref) "" in
    let inherit_fragment := inherit_query && String.eqb (Fragment ref) "" in
    let url1 :=
      {| Scheme := scheme; Opaque := Opaque ref; User := User ref;
         Host := Host ref; Path := Path ref; RawPath := RawPath ref;
         OmitHost := OmitHost ref; ForceQuery := ForceQuery ref;
         RawQuery := if inherit_query then RawQuery u else RawQuery ref;
         Fragment := if inherit_fragment then Fragment u else Fragment ref;
         RawFragment := if inherit_fragment then RawFragment u
                        else RawFragment ref |} in
    if String.eqb (Path ref) "" && negb (String.eqb (Opaque u) "") then
      {| Scheme := scheme; Opaque := Opaque u; User := None; Host := "";
         Path := ""; RawPath := RawPath url1; OmitHost := OmitHost url1;
         ForceQuery := ForceQuery url1; RawQuery := RawQuery url1;
         Fragment := Fragment url1; RawFragment := RawFragment url1 |}
    else
      with_path
        {| Scheme := scheme; Opaque := Opaque url1; User := User u;
           Host := Host u; Path := Path url1; RawPath := RawPath url1;
           OmitHost := OmitHost url1; ForceQuery := ForceQuery url1;
           RawQuery := RawQuery url1; Fragment := Fragment url1;
           RawFragment := RawFragment url1 |}
        (resolvePath (EscapedPath u) (EscapedPath ref)).

(** [Userinfo.String] *)
Definition Userinfo_String (ui : Userinfo) : string :=
  escape (username ui) encodeUserPassword
  ++ (if passwordSet ui
      then ":" ++ escape (password ui) encodeUserPassword
      else EmptyString).

(** [URL.String] *)
Definition String_ (u : URL) : string :=
  let head := if String.eqb (Scheme u) "" then EmptyString
              else Scheme u ++ ":" in
  let body :=
    if negb (String.eqb (Opaque u) "") then head ++ Opaque u
    else
      let has_user := match User u with Some _ => true | None => false end in
      let auth :=
        if negb (String.eqb (Scheme u) "") || negb (String.eqb (Host u) "")
           || has_user
        then
          if OmitHost u && String.eqb (Host u) "" && negb has_user
          then EmptyString
          else
            (if negb (String.eqb (Host u) "")
                || negb (String.eqb (Path u) "") || has_user
             then "//" else EmptyString)
            ++ match User u with
               | Some ui => Userinfo_String ui ++ "@"
               | None => EmptyString
               end
            ++ escape (Host u) encodeHost
        else EmptyString in
      let path := EscapedPath u in
      let sep :=
        match path with
        | String c _ =>
            if negb (Ascii.eqb c "/"%char) && negb (String.eqb (Host u) "")
            then "/" else EmptyString
        | EmptyString => EmptyString
        end in
      let buf := head ++ auth ++ sep in
      let dot :=
        if String.eqb buf ""
           && Contains (fst (fst (Cut path "/"%char))) ":"
        then "./" else EmptyString in
      buf ++ dot ++ path in
  body
  ++ (if ForceQuery u || negb (String.eqb (RawQuery u) "")
      then "?" ++ RawQuery u else EmptyString)
  ++ (if negb (String.eqb (Fragment u) "")
      then "#" ++ EscapedFragment u else EmptyString).

End url.

(** ** utils.go: URLs *)

(** [extractBaseURL]: scheme and host of a URL, [""] when it does not
    parse. *)
Definition extractBaseURL (urlStr : string) : string :=
  match url.Parse urlStr with
  | inr _ => ""
  | inl parsedURL => url.Scheme parsedURL ++ "://" ++ url.Host parsedURL
  end.

(** [resolveURL] resolves a relative URL against a base URL. *)
Definition resolveURL (baseURL : url.URL) (segment : string) : string :=
  if HasPrefix segment "http://" || HasPrefix segment "https://"
  then segment
  else
    match url.Parse segment with
    | inr _ => segment
    | inl segmentURL => url.String_ (url.ResolveReference baseURL segmentURL)
    end.

(** ** The playlist parser *)

(** [unicode.IsSpace] *)
Definition IsSpace (r : Z) : bool :=
  ((9 <=? r) && (r <=? 13)) || (r =? 32) || (r =? 133) || (r =? 160)
  || (r =? 5760) || ((8192 <=? r) && (r <=? 8202)) || (r =? 8232)
  || (r =? 8233) || (r =? 8239) || (r =? 8287) || (r =? 12288).

(** The runes of a string with the bytes of each, decoded from the
    left; [cur] collects the bytes of the rune being passed. *)
Fixpoint runes_from (skip : nat) (r : Z) (cur : string) (s : string)
  : list (Z * string) :=
  match s with
  | EmptyString =>
      match cur with
      | EmptyString => []
      | _ => [(r, cur)]
      end
  | String c s' =>
      match skip with
      | S k => runes_from k r (cur ++ String c EmptyString) s'
      | O =>
          let '(r', w) := utf8.DecodeRuneInString s in
          match cur with
          | EmptyString => runes_from (w - 1) r' (String c EmptyString) s'
          | _ => (r, cur) :: runes_from (w - 1) r' (String c EmptyString) s'
          end
      end
  end.

Definition runes (s : string) : list (Z * string) :=
  runes_from 0 0 EmptyString s.

Fixpoint drop_spaces (l : list (Z * string)) : list (Z * string) :=
  match l with
  | (r, _) :: rest => if IsSpace r then drop_spaces rest else l
  | [] => []
  end.

(** [strings.TrimSpace]: the string without its leading and trailing
    white space.  The runes are found by decoding from the left, also
    for the trailing end. *)
Definition TrimSpace (s : string) : string :=
  String.concat EmptyString
    (map snd (rev (drop_spaces (rev (drop_spaces (runes s)))))).

(** [bufio.MaxScanTokenSize] *)
Definition MaxScanTokenSize : Z := 65536.

(** The pieces of the body between newlines; a last piece without
    newline counts when it is not empty. *)
Fixpoint split_lines (cur s : string) : list string :=
  match s with
  | EmptyString =>
      match cur with
      | EmptyString => []
      | _ => [cur]
      end
  | String c s' =>
      if Ascii.eqb c (byte_of 10) then cur :: split_lines EmptyString s'
      else split_lines (cur ++ String c EmptyString) s'
  end.

(** [dropCR] drops a terminal carriage return. *)
Fixpoint dropCR (s : string) : string :=
  match s with
  | EmptyString => EmptyString
  | String c EmptyString =>
      if Ascii.eqb c (byte_of 13) then EmptyString else s
  | String c s' => String c (dropCR s')
  end.

(** The tokens of a [bufio.Scanner] with [ScanLines] up to the first
    line that does not fit its buffer, and whether there is such a line
    ([scanner.Err()] is then [ErrTooLong]). *)
Fixpoint scan_tokens (raw : list string) : list string * bool :=
  match raw with
  | [] => ([], false)
  | line :: rest =>
      if MaxScanTokenSize <=? len line then ([], true)
      else let '(tokens, tooLong) := scan_tokens rest in
           (dropCR line :: tokens, tooLong)
  end.

Definition scanner_lines (body : string) : list string * bool :=
  scan_tokens (split_lines EmptyString body).

(** The body of the loop of [parseM3U8]: the segment URL appended for
    one scanned line, [None] when the line is skipped. *)
Definition parseLine (baseURL : url.URL) (text : string) : option string :=
  let line := TrimSpace text in
  if String.eqb line "" || HasPrefix line "#" then None
  else
    let cleanLine := cleanString line in
    if (String.length cleanLine =? 0)%nat
       || any_byte (fun c =>
                      let v := byte_val c in
                      ((0 <=? v) && (v <=? 8)) || (v =? 11) || (v =? 12)
                      || (v =? 14) || (v =? 15)) cleanLine
    then None
    else if (String.length cleanLine <? 5)%nat then None
    else
      let segmentURL := resolveURL baseURL cleanLine in
      match url.Parse segmentURL with
      | inr _ => None
      | inl _ =>
          if negb (Contains segmentURL ".")
             && negb (Contains segmentURL "seg")
             && negb (Contains segmentURL "chunk")
          then None
          else Some segmentURL
      end.

Fixpoint parseLines (baseURL : url.URL) (lines : list string) : list string :=
  match lines with
  | [] => []
  | text :: rest =>
      match parseLine baseURL text with
      | Some segmentURL => segmentURL :: parseLines baseURL rest
      | None => parseLines baseURL rest
      end
  end.

(** What the network did with the request for the playlist. *)
Inductive PlaylistFetch :=
  | PlaylistRequestError (err : error)   (* [makeRequest] failed *)
  | PlaylistReadError (err : error)      (* [io.ReadAll] failed *)
  | PlaylistBody (body : string).

(** [parseM3U8] parses an M3U8 playlist and returns segment URLs. *)
Definition parseM3U8 (m3u8URL : string) (fetched : PlaylistFetch)
  : list string * option error :=
  match fetched with
  | PlaylistRequestError err | PlaylistReadError err => ([], Some err)
  | PlaylistBody body =>
      match url.Parse m3u8URL with
      | inr reason => ([], Some reason)
      | inl baseURL =>
          let '(lines, tooLong) := scanner_lines body in
          (parseLines baseURL lines,
           if tooLong then Some "bufio.Scanner: token too long" else None)
      end
  end.

(** ** warmer.go: the warm cycle and its report *)

(** The statistics loop of [WarmM3U8]. *)
Fixpoint collectStats (results : list CacheStatus) (cached : Z)
    (errors : list error) : Z * list error :=
  match results with
  | [] => (cached, errors)
  | r :: rest =>
      match Error r with
      | Some err => collectStats rest cached (errors ++ [err])
      | None =>
          if Hit r then collectStats rest (cached + 1) errors
          else collectStats rest cached errors
      end
  end.

(** [WarmM3U8] warms an M3U8 playlist and its segments.  [parsed] is
    the result of [parseM3U8], [results] what [warmSegments] returned
    for the parsed segments, [elapsed] the duration of the cycle. *)
Definition WarmM3U8 (m3u8URL : string) (parsed : list string * option error)
    (results : list CacheStatus) (elapsed : Z) : WarmResult + error :=
  match parsed with
  | (_, Some err) => inr ("M3U8 parse error: " ++ err)%string
  | (segments, None) =>
      let '(cached, errors) := collectStats results 0 [] in
      inl {| M3U8URL := m3u8URL;
             TotalFiles := Z.of_nat (length segments);
             CachedFiles := cached;
             Errors := errors;
             WDuration := elapsed;
             Details := results |}
  end.

(** [float64]: IEEE 754 binary64 as specified in [SpecFloat]. *)
Definition prec64 : Z := 53.
Definition emax64 : Z := 1024.

(** The conversion [float64(n)] of an [int], rounding to nearest even. *)
Definition float64_of_int (n : Z) : spec_float :=
  binary_normalize prec64 emax64 n 0 false.

Definition float64_div : spec_float -> spec_float -> spec_float :=
  SFdiv prec64 emax64.

Definition float64_mul : spec_float -> spec_float -> spec_float :=
  SFmul prec64 emax64.

(** The argument of the line ["Cache Ratio: %.2f%%"]:
    [float64(result.CachedFiles)/float64(result.TotalFiles)*100]. *)
Definition cacheRatio (result : WarmResult) : spec_float :=
  float64_mul
    (float64_div (float64_of_int (CachedFiles result))
                 (float64_of_int (TotalFiles result)))
    (float64_of_int 100).

(** The values [PrintResults] prints in its summary. *)
Record Summary := {
  sTotal : Z;          (* "Total Files" *)
  sHit : Z;            (* "Cache Hit" *)
  sMiss : Z;           (* "Cache Miss" *)
  sErrorCount : Z;     (* "Error Count" *)
  sDuration : Z;       (* "Total Duration" *)
  sRatio : spec_float; (* "Cache Ratio" *)
  sErrors : list error (* the numbered lines under "ERRORS" *)
}.

(** [PrintResults] prints the warming results. *)
Definition PrintResults (result : WarmResult) : Summary :=
  {| sTotal := TotalFiles result;
     sHit := CachedFiles result;
     sMiss := TotalFiles result - CachedFiles result;
     sErrorCount := Z.of_nat (length (Errors result));
     sDuration := WDuration result;
     sRatio := cacheRatio result;
     sErrors := Errors result |}.

(** What [runOnceMode] shows for one playlist: the text that
    [log.Printf] substitutes for [%v] in ["Error: %v"], or the summary. *)
Inductive Display :=
  | LogError (text : string)
  | Results (summary : Summary).

(** One iteration of the loop of [runOnceMode]. *)
Definition runOnceMode (m3u8URL : string) (parsed : list string * option error)
    (results : list CacheStatus) (elapsed : Z) : Display :=
  match WarmM3U8 m3u8URL parsed results elapsed with
  | inr err => LogError err
  | inl result => Results (PrintResults result)
  end.

(** The text the daemon logs for a tick, if any. *)
Definition tickLogged (outcome : TickOutcome) : option string :=
  match outcome with
  | TickParseError logged => Some logged
  | _ => None
  end.

(** Line endings, and the quote character of an error text. *)
Definition LF : string := String (byte_of 10) EmptyString.
Definition CRLF : string := String (byte_of 13) LF.
Definition quoted (s : string) : string :=
  String url.dquote s ++ String url.dquote EmptyString.

(** The error text of [http.NewRequest] for a URL whose port is not a
    number: [parse "<url>": invalid port "<port>" after host].  The URL
    is quoted by [%q], which leaves printable non-ASCII runes as they
    are. *)
Definition invalid_port_error (rawURL port : string) : error :=
  "parse " ++ quoted rawURL ++ ": invalid port " ++ quoted port
  ++ " after host".

(** ** utils.go: [generateUUID] *)

(** The two digits that [%X] prints for one byte. *)
Definition hexHi (c : ascii) : ascii := url.upperhex (Z.shiftr (byte_val c) 4).
Definition hexLo (c : ascii) : ascii := url.upperhex (Z.land (byte_val c) 15).

(** [%X] of a byte slice. *)
Fixpoint hexBytes (b : list ascii) : string :=
  match b with
  | [] => EmptyString
  | c :: rest => String (hexHi c) (String (hexLo c) (hexBytes rest))
  end.

(** [b[6] = (b[6] & 0x0f) | 0x40] and [b[8] = (b[8] & 0x3f) | 0x80] *)
Definition setVersion (c : ascii) : ascii :=
  byte_of (Z.lor (Z.land (byte_val c) 15) 64).
Definition setVariant (c : ascii) : ascii :=
  byte_of (Z.lor (Z.land (byte_val c) 63) 128).

(** [b[lo:hi]] *)
Definition slice (b : list ascii) (lo hi : nat) : list ascii :=
  take (hi - lo) (drop lo b).

(** [generateUUID] generates a random UUID v4; [random] is the content
    of the 16-byte slice after [rand.Read]. *)
Definition generateUUID (random : list ascii) : string :=
  let b := random in
  let b := alter setVersion 6%nat b in
  let b := alter setVariant 8%nat b in
  hexBytes (slice b 0 4) ++ "-" ++ hexBytes (slice b 4 6) ++ "-"
  ++ hexBytes (slice b 6 8) ++ "-" ++ hexBytes (slice b 8 10) ++ "-"
  ++ hexBytes (slice b 10 16).

(** An upper-case hexadecimal digit. *)
Definition is_upper_hex (c : ascii) : bool :=
  let v := byte_val c in
  ((48 <=? v) && (v <=? 57)) || ((65 <=? v) && (v <=? 70)).

(** The shape of a version-4 UUID in upper case:
    [XXXXXXXX-XXXX-4XXX-YXXX-XXXXXXXXXXXX] with [Y] one of 8, 9, A, B. *)
Fixpoint uuid_shape (i : nat) (s : string) : bool :=
  match s with
  | EmptyString => (i =? 36)%nat
  | String c rest =>
      (if (i =? 8)%nat || (i =? 13)%nat || (i =? 18)%nat || (i =? 23)%nat
       then Ascii.eqb c "-"%char
       else if (i =? 14)%nat then Ascii.eqb c "4"%char
       else if (i =? 19)%nat then url.byte_in c "89AB"
       else is_upper_hex c)
      && uuid_shape (S i) rest
  end.

Definition is_uuid_v4 (s : string) : bool := uuid_shape 0 s.

(** ** warmer.go: the warmer and its construction *)

Module Warmer.

(** [Config] holds the configuration for HLSWarmer. *)
Record Config := {
  Workers : Z;
  Referer : string;
  Origin : string;
  PlaybackID : string;
  Interval : Z;
  TTL : Z;
  RewarmLast : Z;
  DaemonMode : bool;
  Debug : bool;
  Quiet : bool
}.

(** [HLSWarmer] without the HTTP client and the mutexes. *)
Record HLSWarmer := {
  maxWorkers : Z;
  userAgent : string;
  referer : string;
  origin : string;
  playbackID : string;
  cacheStats : gmap string CacheStatus;
  interval : Z;
  daemonMode : bool;
  debug : bool;
  quiet : bool;
  processedURLs : gmap string Z;
  processedTTL : Z;
  rewarmLast : Z;
  streamActive : gmap string bool
}.

Definition defaultUserAgent : string :=
  "Mozilla/5.0 (Macintosh; Intel Mac OS X 10_15_7) AppleWebKit/537.36 (KHTML, like Gecko) Chrome/142.0.0.0 Safari/537.36".

(** [NewHLSWarmer] creates a new HLSWarmer instance; [random] is what
    [rand.Read] delivers should a session id have to be generated. *)
Definition NewHLSWarmer (config : Config) (random : list ascii) : HLSWarmer :=
  let workers := if Workers config =? 0 then defaultWorkers else Workers config in
  let interval' :=
    if Interval config =? 0 then defaultInterval else Interval config in
  let ttl := if TTL config =? 0 then defaultTTL else TTL config in
  let id := if String.eqb (PlaybackID config) ""
            then generateUUID random else PlaybackID config in
  {| maxWorkers := workers;
     userAgent := defaultUserAgent;
     referer := Referer config;
     origin := Origin config;
     playbackID := id;
     cacheStats := ∅;
     interval := interval';
     daemonMode := DaemonMode config;
     debug := Debug config;
     quiet := Quiet config;
     processedURLs := ∅;
     processedTTL := ttl;
     rewarmLast := RewarmLast config;
     streamActive := ∅ |}.

(** [req.Header.Set(key, value)] *)
Definition Header_Set (h : Header) (key value : string) : Header :=
  <[CanonicalMIMEHeaderKey key := [value]]> h.

Definition set_if (cond : bool) (key value : string) (h : Header) : Header :=
  if cond then Header_Set h key value else h.

(** The header of the request that [makeRequest] builds. *)
Definition requestHeader (h : HLSWarmer) : Header :=
  let hd := Header_Set ∅ "User-Agent" (userAgent h) in
  let hd := Header_Set hd "Accept" "*/*" in
  let hd := Header_Set hd "Accept-Language" "en-US,en;q=0.9" in
  let hd := Header_Set hd "Accept-Encoding" "gzip" in
  let hd := Header_Set hd "Sec-Fetch-Dest" "video" in
  let hd := Header_Set hd "Sec-Fetch-Mode" "no-cors" in
  let hd := Header_Set hd "Sec-Fetch-Site" "same-origin" in
  let hd := Header_Set hd "Priority" "u=3, i" in
  let hd := set_if (negb (String.eqb (referer h) "")) "Referer" (referer h) hd in
  let hd := set_if (negb (String.eqb (origin h) "")) "Origin" (origin h) hd in
  set_if (negb (String.eqb (playbackID h) ""))
    "X-Playback-Session-Id" (playbackID h) hd.

(** The auto-detection at the head of [WarmM3U8]: an unset referer and
    an unset origin take the base of the playlist URL, when that is not
    empty. *)
Definition autoDetect (h : HLSWarmer) (m3u8URL : string) : HLSWarmer :=
  let base := extractBaseURL m3u8URL in
  let referer' :=
    if String.eqb (referer h) "" && negb (String.eqb base "")
    then base else referer h in
  let origin' :=
    if String.eqb (origin h) "" && negb (String.eqb base "")
    then base else origin h in
  {| maxWorkers := maxWorkers h; userAgent := userAgent h;
     referer := referer'; origin := origin'; playbackID := playbackID h;
     cacheStats := cacheStats h; interval := interval h;
     daemonMode := daemonMode h; debug := debug h; quiet := quiet h;
     processedURLs := processedURLs h; processedTTL := processedTTL h;
     rewarmLast := rewarmLast h; streamActive := streamActive h |}.

(** The warmer after [WarmM3U8] has been called on each URL in turn,
    as [runOnceMode] does. *)
Definition autoDetectAll (h : HLSWarmer) (m3u8URLs : list string) : HLSWarmer :=
  fold_left autoDetect m3u8URLs h.

(** The base of the first URL of the list that has one. *)
Fixpoint firstBase (m3u8URLs : list string) : string :=
  match m3u8URLs with
  | [] => EmptyString
  | u :: rest =>
      if String.eqb (extractBaseURL u) "" then firstBase rest
      else extractBaseURL u
  end.

End Warmer.

(** A header value that names a hit: it contains [hit] or [cached],
    in any letter case. *)
Definition indicates (value : string) : bool :=
  Contains (ToLowerASCII value) "hit" || Contains (ToLowerASCII value) "cached".

(** *** More ghost definitions for the pool *)

(** The outcome a worker is about to send. *)
Definition sent (w : wstate) : list CacheStatus :=
  match w with
  | WSend result => [result]
  | _ => []
  end.

(** All outcomes produced so far in a call, wherever they are. *)
Definition outcomes (p : pool) : list CacheStatus :=
  flat_map sent (workers p) ++ results p ++ allResults p.

(** A failed outcome carries a sanitized cause and nothing else. *)
Definition failure_is_clean (r : CacheStatus) : Prop :=
  forall err, Error r = Some err ->
    all_bytes printable err = true
    /\ Hit r = false /\ StatusCode r = 0 /\ Headers r = ∅.

(** The segments of a call in the order in which a single worker
    passes them along. *)
Definition pipeline (p : pool) : list string :=
  map URL (allResults p) ++ map URL (results p) ++ held_all (workers p)
  ++ jobs p ++ pending p.

(** A success record for [key]. *)
Definition success_for (key : string) (st : CacheStatus) : Prop :=
  URL st = key /\ Error st = None.
(** ** Facts about bytes, UTF-8 and [cleanString] *)

Section ByteFacts.

Lemma byte_val_range (c : ascii) : 0 <= byte_val c < 256.
Proof.
  unfold byte_val. pose proof (N_ascii_bounded c). lia.
Qed.

Lemma byte_of_val (c : ascii) : byte_of (byte_val c) = c.
Proof.
  unfold byte_of, byte_val. rewrite N2Z.id. apply ascii_N_embedding.
Qed.

Lemma byte_val_of (z : Z) : 0 <= z < 256 -> byte_val (byte_of z) = z.
Proof.
  intros Hz. unfold byte_of, byte_val.
  rewrite N_ascii_embedding by lia. lia.
Qed.

Lemma lor_lower_l (a b : Z) : 0 <= a -> 0 <= b -> a <= Z.lor a b.
Proof.
  intros Ha Hb. pose proof (Z.add_lor_land a b) as E.
  pose proof (Z.sub_land_same_l b a) as D.
  assert (0 <= Z.land b (Z.lnot a)) by (apply Z.land_nonneg; now left).
  rewrite (Z.land_comm b a) in D. lia.
Qed.

Lemma lor_lower_r (a b : Z) : 0 <= a -> 0 <= b -> b <= Z.lor a b.
Proof.
  intros Ha Hb. rewrite Z.lor_comm. now apply lor_lower_l.
Qed.

Lemma land_mask_nonneg (a m : Z) : 0 <= m -> 0 <= Z.land a m.
Proof. intros Hm. apply Z.land_nonneg. now right. Qed.

Lemma shiftl_nonneg' (a n : Z) : 0 <= a -> 0 <= Z.shiftl a n.
Proof. intros Ha. now apply Z.shiftl_nonneg. Qed.

End ByteFacts.

Section CleanStringFacts.

Lemma first_spec (b0 : Z) (sz : nat) (lo hi : Z) :
  utf8.first b0 = Some (sz, lo, hi) ->
  128 <= lo /\ (2 <= sz <= 4)%nat /\
  ((sz = 2%nat /\ 194 <= b0 < 224) \/
   (sz = 3%nat /\ ((b0 = 224 /\ lo = 160) \/ 225 <= b0 < 240)) \/
   (sz = 4%nat /\ ((b0 = 240 /\ lo = 144) \/ 241 <= b0 <= 244))).
Proof.
  unfold utf8.first, utf8.locb, utf8.hicb.
  repeat (match goal with
          | |- context [if ?b then _ else _] => destruct b eqn:?
          end);
    intros E; inversion E; subst; clear E; lia.
Qed.

Lemma land_low_bits (a : Z) (k : Z) :
  0 <= k -> Z.land a (2 ^ k - 1) = a mod 2 ^ k.
Proof.
  intros Hk. replace (2 ^ k - 1) with (Z.ones k).
  - now apply Z.land_ones.
  - rewrite Z.ones_equiv. lia.
Qed.

Lemma land_mask_lower (a k lo q : Z) :
  0 <= k -> 0 <= lo < 2 ^ k -> q * 2 ^ k + lo <= a < (q + 1) * 2 ^ k ->
  lo <= Z.land a (2 ^ k - 1).
Proof.
  intros Hk Hlo Ha. rewrite land_low_bits by lia.
  assert (a / 2 ^ k = q)
    by (symmetry; apply Z.div_unique with (r := a - q * 2 ^ k); lia).
  pose proof (Z.div_mod a (2 ^ k) ltac:(lia)). nia.
Qed.

Lemma shiftl_lower (a n k : Z) :
  0 <= n -> k <= a -> k * 2 ^ n <= Z.shiftl a n.
Proof.
  intros Hn Hk. rewrite Z.shiftl_mul_pow2 by lia.
  apply Z.mul_le_mono_nonneg_r; lia.
Qed.

(** A multi-byte sequence never decodes to a rune below 128. *)
Lemma rune2_high (s0 s1 : Z) :
  194 <= s0 < 224 ->
  128 <= Z.lor (Z.shiftl (Z.land s0 31) 6) (Z.land s1 63).
Proof.
  intros H0.
  pose proof (land_mask_lower s0 5 2 6 ltac:(lia) ltac:(lia) ltac:(lia)) as B.
  pose proof (shiftl_lower _ 6 2 ltac:(lia) B) as S.
  pose proof (lor_lower_l (Z.shiftl (Z.land s0 31) 6) (Z.land s1 63)
                ltac:(change (2 ^ 5 - 1) with 31 in S; lia)
                (land_mask_nonneg s1 63 ltac:(lia))).
  change (2 ^ 5 - 1) with 31 in S. lia.
Qed.

Lemma rune3_high (s0 s1 s2 : Z) :
  (s0 = 224 /\ 160 <= s1 < 192) \/ 225 <= s0 < 240 ->
  128 <= Z.lor (Z.lor (Z.shiftl (Z.land s0 15) 12)
                      (Z.shiftl (Z.land s1 63) 6)) (Z.land s2 63).
Proof.
  intros H.
  assert (Ha : 0 <= Z.shiftl (Z.land s0 15) 12)
    by (apply shiftl_nonneg', land_mask_nonneg; lia).
  assert (Hb : 0 <= Z.shiftl (Z.land s1 63) 6)
    by (apply shiftl_nonneg', land_mask_nonneg; lia).
  assert (Hc : 0 <= Z.land s2 63) by (apply land_mask_nonneg; lia).
  pose proof (lor_lower_l _ _ Ha Hb) as L1.
  pose proof (lor_lower_r _ _ Ha Hb) as L2.
  pose proof (lor_lower_l _ _ (proj2 (Z.lor_nonneg _ _) (conj Ha Hb)) Hc) as L3.
  destruct H as [[-> Hs1] | Hs0].
  - pose proof (land_mask_lower s1 6 32 2 ltac:(lia) ltac:(lia) ltac:(lia)) as B.
    pose proof (shiftl_lower _ 6 32 ltac:(lia) B) as S.
    change (2 ^ 6 - 1) with 63 in S. lia.
  - pose proof (land_mask_lower s0 4 1 14 ltac:(lia) ltac:(lia) ltac:(lia)) as B.
    pose proof (shiftl_lower _ 12 1 ltac:(lia) B) as S.
    change (2 ^ 4 - 1) with 15 in S. lia.
Qed.

Lemma rune4_high (s0 s1 s2 s3 : Z) :
  (s0 = 240 /\ 144 <= s1 < 192) \/ 241 <= s0 <= 244 ->
  128 <= Z.lor (Z.lor (Z.lor (Z.shiftl (Z.land s0 7) 18)
                             (Z.shiftl (Z.land s1 63) 12))
                      (Z.shiftl (Z.land s2 63) 6)) (Z.land s3 63).
Proof.
  intros H.
  assert (Ha : 0 <= Z.shiftl (Z.land s0 7) 18)
    by (apply shiftl_nonneg', land_mask_nonneg; lia).
  assert (Hb : 0 <= Z.shiftl (Z.land s1 63) 12)
    by (apply shiftl_nonneg', land_mask_nonneg; lia).
  assert (Hc : 0 <= Z.shiftl (Z.land s2 63) 6)
    by (apply shiftl_nonneg', land_mask_nonneg; lia).
  assert (Hd : 0 <= Z.land s3 63) by (apply land_mask_nonneg; lia).
  pose proof (lor_lower_l _ _ Ha Hb) as L1.
  pose proof (lor_lower_r _ _ Ha Hb) as L2.
  pose proof (proj2 (Z.lor_nonneg _ _) (conj Ha Hb)) as Hab.
  pose proof (lor_lower_l _ _ Hab Hc) as L3.
  pose proof (lor_lower_l _ _ (proj2 (Z.lor_nonneg _ _) (conj Hab Hc)) Hd) as L4.
  destruct H as [[-> Hs1] | Hs0].
  - pose proof (land_mask_lower s1 6 16 2 ltac:(lia) ltac:(lia) ltac:(lia)) as B.
    pose proof (shiftl_lower _ 12 16 ltac:(lia) B) as S.
    change (2 ^ 6 - 1) with 63 in S. lia.
  - pose proof (land_mask_lower s0 3 1 30 ltac:(lia) ltac:(lia) ltac:(lia)) as B.
    pose proof (shiftl_lower _ 18 1 ltac:(lia) B) as S.
    change (2 ^ 3 - 1) with 7 in S. lia.
Qed.

(** What the decoder returns at the head of a non-empty string: an ASCII
    byte is its own rune; otherwise the rune is at least 128 and the
    bytes consumed after the first one are all high bytes. *)
Lemma decode_cases (c : ascii) (s' : string) (r : Z) (w : nat) :
  utf8.DecodeRuneInString (String c s') = (r, w) ->
  (byte_val c < 128 /\ r = byte_val c /\ w = 1%nat) \/
  (128 <= byte_val c /\ 128 <= r /\ (1 <= w)%nat /\
   all_bytes high_byte (str_take (w - 1) s') = true).
Proof.
  cbn [utf8.DecodeRuneInString]. unfold utf8.RuneSelf, utf8.RuneError.
  pose proof (byte_val_range c) as Rc.
  destruct (byte_val c <? 128) eqn:E0;
    [intros E; injection E as <- <-; left; lia |].
  apply Z.ltb_ge in E0.
  assert (Herr : (65533, 1%nat) = (r, w) ->
                 (byte_val c < 128 /\ r = byte_val c /\ w = 1%nat) \/
                 (128 <= byte_val c /\ 128 <= r /\ (1 <= w)%nat /\
                  all_bytes high_byte (str_take (w - 1) s') = true)).
  { intros E; injection E as <- <-. right. cbn. repeat split; lia. }
  destruct (utf8.first (byte_val c)) as [[[sz lo] hi] |] eqn:F; [| exact Herr].
  destruct (first_spec _ _ _ _ F) as (Hlo & Hsz & Hcase).
  destruct s' as [| c1 r1]; [exact Herr |].
  pose proof (byte_val_range c1) as R1.
  destruct ((byte_val c1 <? lo) || (hi <? byte_val c1)) eqn:E1; [exact Herr |].
  apply orb_false_iff in E1. destruct E1 as [E1 E1'].
  apply Z.ltb_ge in E1. apply Z.ltb_ge in E1'.
  assert (H1 : high_byte c1 = true) by (unfold high_byte; lia).
  assert (Hhi : hi <= 191).
  { unfold utf8.first, utf8.locb, utf8.hicb in F.
    repeat (match type of F with
            | context [if ?b then _ else _] => destruct b
            end); inversion F; lia. }
  destruct (sz <=? 2)%nat eqn:S2.
  { apply Nat.leb_le in S2. intros E; injection E as <- <-. right.
    cbn [str_take Nat.sub all_bytes]. rewrite H1.
    repeat split; try lia.
    apply rune2_high. destruct Hcase as [[_ ?] | [[? _] | [? _]]]; lia. }
  apply Nat.leb_gt in S2.
  destruct r1 as [| c2 r2]; [exact Herr |].
  unfold utf8.is_cont, utf8.locb, utf8.hicb.
  destruct ((128 <=? byte_val c2) && (byte_val c2 <=? 191)) eqn:E2;
    cbn [negb]; [| exact Herr].
  assert (H2 : high_byte c2 = true) by (unfold high_byte; lia).
  destruct (sz <=? 3)%nat eqn:S3.
  { apply Nat.leb_le in S3. intros E; injection E as <- <-. right.
    cbn [str_take Nat.sub all_bytes]. rewrite H1, H2.
    repeat split; try lia.
    apply rune3_high.
    destruct Hcase as [[? _] | [[_ [[? ?] | ?]] | [? _]]]; lia. }
  apply Nat.leb_gt in S3.
  destruct r2 as [| c3 r3]; [exact Herr |].
  destruct ((128 <=? byte_val c3) && (byte_val c3 <=? 191)) eqn:E3;
    cbn [negb]; [| exact Herr].
  assert (H3 : high_byte c3 = true) by (unfold high_byte; lia).
  intros E; injection E as <- <-. right.
  cbn [str_take Nat.sub all_bytes]. rewrite H1, H2, H3.
  repeat split; try lia.
  apply rune4_high.
  destruct Hcase as [[? _] | [[? _] | [_ [[? ?] | ?]]]]; lia.
Qed.

Lemma cleanRune_high (r : Z) : 128 <= r -> cleanRune r = -1.
Proof.
  intros H. unfold cleanRune.
  destruct (_ || _) eqn:E; [exfalso; lia | reflexivity].
Qed.

Lemma cleanRune_byte (c : ascii) :
  cleanRune (byte_val c) = if printable c then byte_val c else -1.
Proof. reflexivity. Qed.

Lemma high_byte_not_printable (c : ascii) :
  high_byte c = true -> printable c = false.
Proof. unfold high_byte, printable. lia. Qed.

Lemma printable_ascii (c : ascii) :
  printable c = true -> 0 <= byte_val c < 128.
Proof. unfold printable. lia. Qed.

(** On bytes, [strings.Map cleanRune] is a filter: every byte of a
    non-ASCII or invalid rune goes, every ASCII byte is judged alone. *)
Lemma strings_Map_cleanRune_from (s : string) :
  forall skip : nat,
    all_bytes high_byte (str_take skip s) = true ->
    strings_Map_from skip cleanRune s = filter_bytes printable s.
Proof.
  induction s as [| c s' IH]; intros skip Hskip; [reflexivity |].
  destruct skip as [| k].
  - cbn [strings_Map_from filter_bytes].
    destruct (utf8.DecodeRuneInString (String c s')) as [r w] eqn:D.
    apply decode_cases in D.
    destruct D as [(Hc & -> & ->) | (Hc & Hr & Hw & Htl)].
    + rewrite cleanRune_byte. cbn [Nat.sub].
      rewrite (IH 0%nat) by reflexivity.
      destruct (printable c) eqn:P.
      * pose proof (byte_val_range c).
        destruct (byte_val c <? 0) eqn:N; [lia |].
        unfold utf8.EncodeRune.
        destruct ((0 <=? byte_val c) && (byte_val c <? 128)) eqn:A; [| lia].
        now rewrite byte_of_val.
      * reflexivity.
    + rewrite (cleanRune_high r Hr). cbn [Z.ltb Z.compare String.append].
      rewrite (IH (w - 1)%nat Htl).
      rewrite high_byte_not_printable; [reflexivity |].
      unfold high_byte. lia.
  - cbn [str_take all_bytes] in Hskip. apply andb_true_iff in Hskip.
    destruct Hskip as [Hc Hk].
    cbn [strings_Map_from filter_bytes].
    rewrite (high_byte_not_printable c Hc). now apply IH.
Qed.

Lemma ReplaceAll_NUL (s : string) :
  ReplaceAll s (String zero EmptyString) "" =
  filter_bytes (fun c => negb (Ascii.eqb c zero)) s.
Proof.
  unfold ReplaceAll. induction s as [| c s' IH]; [reflexivity |].
  cbn [ReplaceAll_from String.prefix String.length Nat.sub filter_bytes].
  destruct (ascii_dec zero c) as [<- | Hne].
  - destruct s'; cbn [String.append negb Ascii.eqb]; rewrite ?Ascii.eqb_refl;
      exact IH.
  - assert (Ascii.eqb c zero = false) as ->
        by (apply Ascii.eqb_neq; congruence).
    cbn [negb]. now rewrite IH.
Qed.

Lemma filter_bytes_filter (p q : ascii -> bool) (s : string) :
  (forall c, p c = true -> q c = true) ->
  filter_bytes p (filter_bytes q s) = filter_bytes p s.
Proof.
  intros Hpq. induction s as [| c s' IH]; [reflexivity |].
  cbn [filter_bytes]. destruct (q c) eqn:Q.
  - cbn [filter_bytes]. now rewrite IH.
  - rewrite IH. destruct (p c) eqn:P; [| reflexivity].
    apply Hpq in P. congruence.
Qed.

Lemma all_bytes_filter (p : ascii -> bool) (s : string) :
  all_bytes p (filter_bytes p s) = true.
Proof.
  induction s as [| c s' IH]; [reflexivity |].
  cbn [filter_bytes]. destruct (p c) eqn:P; [| exact IH].
  cbn [all_bytes]. now rewrite P.
Qed.

Lemma filter_bytes_all (p : ascii -> bool) (s : string) :
  all_bytes p s = true -> filter_bytes p s = s.
Proof.
  induction s as [| c s' IH]; [reflexivity |].
  cbn [all_bytes filter_bytes]. intros H. apply andb_true_iff in H.
  destruct H as [-> H]. now rewrite IH.
Qed.

(** [cleanString] keeps exactly the printable bytes, in order. *)
Lemma cleanString_filter (s : string) :
  cleanString s = filter_bytes printable s.
Proof.
  unfold cleanString, strings_Map.
  rewrite strings_Map_cleanRune_from by reflexivity.
  rewrite ReplaceAll_NUL. apply filter_bytes_filter.
  intros c P. destruct (Ascii.eqb_spec c zero) as [-> |]; [| reflexivity].
  discriminate P.
Qed.

End CleanStringFacts.

(** C10.  For every input string the output of [cleanString] contains
    only printable ASCII bytes (codes 32 through 126), tab, newline and
    carriage return; and [cleanString] is idempotent. *)
Theorem cleanString_printable_idempotent (s : string) :
  (forall c, In c (list_ascii_of_string (cleanString s)) ->
             32 <= byte_val c <= 126 \/ byte_val c = 9
             \/ byte_val c = 10 \/ byte_val c = 13)
  /\ cleanString (cleanString s) = cleanString s.
Proof.
  split.
  - rewrite cleanString_filter.
    pose proof (all_bytes_filter printable s) as Hall.
    revert Hall. generalize (filter_bytes printable s). intros t.
    induction t as [| a t IH]; cbn; intros Hall c Hin; [contradiction |].
    apply andb_true_iff in Hall as [Ha Hall].
    destruct Hin as [<- | Hin]; [| now apply IH].
    unfold printable in Ha. lia.
  - rewrite !cleanString_filter. apply filter_bytes_filter. auto.
Qed.

(** ** The cache classifier *)

Section ClassifierFacts.
Context {lib : GoLib}.

Lemma hasIndicator_ascii (value : string) :
  is_ascii value = true ->
  hasIndicator value hitIndicators
  = Contains (ToLowerASCII value) "hit" || Contains (ToLowerASCII value) "cached".
Proof.
  intros Ha. unfold hitIndicators. cbn [hasIndicator].
  rewrite (strings_ToLower_ascii value Ha).
  rewrite !strings_ToLower_ascii by reflexivity.
  change (ToLowerASCII "hit") with "hit".
  change (ToLowerASCII "HIT") with "hit".
  change (ToLowerASCII "cached") with "cached".
  change (ToLowerASCII "CACHED") with "cached".
  destruct (Contains (ToLowerASCII value) "hit"),
    (Contains (ToLowerASCII value) "cached"); reflexivity.
Qed.

Lemma Header_Get_absent (h : Header) (name : string) :
  h !! CanonicalMIMEHeaderKey name = None -> Header_Get h name = "".
Proof. unfold Header_Get. now intros ->. Qed.

(** Without vendor headers only the [Age] header decides. *)
Lemma detectCacheHit_age_only (h : Header) :
  carries_none h vendorHeaders ->
  detectCacheHit h
  = (let age := Header_Get h "Age" in
     negb (age =? "")%string
     && (hasIndicator age hitIndicators || negb (age =? "0")%string)).
Proof.
  intros Hnone. unfold detectCacheHit, cacheHeaders.
  cbn [scanCacheHeaders].
  rewrite !Header_Get_absent by (apply Hnone; cbn; tauto).
  cbn [String.eqb negb andb]. cbv zeta.
  destruct (negb (Header_Get h "Age" =? "")%string);
    destruct (hasIndicator (Header_Get h "Age") hitIndicators);
    destruct (negb (Header_Get h "Age" =? "0")%string); reflexivity.
Qed.

(** C8 (as amended).  For every response carrying none of the six vendor
    cache headers, the classifier returns hit exactly when the first
    [Age] value is neither empty nor the literal ["0"]. *)
Theorem detectCacheHit_age (h : Header) :
  carries_none h vendorHeaders ->
  detectCacheHit h = true <->
  Header_Get h "Age" <> "" /\ Header_Get h "Age" <> "0".
Proof.
  intros Hnone. rewrite (detectCacheHit_age_only h Hnone). cbv zeta.
  destruct (String.eqb_spec (Header_Get h "Age") "") as [E0 | E0].
  { cbn. split; [discriminate | tauto]. }
  destruct (String.eqb_spec (Header_Get h "Age") "0") as [E1 | E1].
  { rewrite E1. rewrite hasIndicator_ascii by reflexivity. cbn.
    split; [discriminate | tauto]. }
  rewrite orb_true_r. cbn. tauto.
Qed.

End ClassifierFacts.

(** [Age: 120] alone is a hit, [Age: 0] alone and no header at all are
    misses, [CF-Cache-Status: HIT] is a hit. *)
Example detectCacheHit_examples :
  detectCacheHit (lib := ascii_lib) {[ "Age" := ["120"] ]} = true
  /\ detectCacheHit (lib := ascii_lib) {[ "Age" := ["0"] ]} = false
  /\ detectCacheHit (lib := ascii_lib) ∅ = false
  /\ detectCacheHit (lib := ascii_lib) {[ "Cf-Cache-Status" := ["HIT"] ]} = true.
Proof. repeat split; vm_compute; reflexivity. Qed.

Lemma carries_none_age (values : list string) :
  carries_none ({[ "Age" := values ]} : Header) vendorHeaders.
Proof.
  intros name Hin. cbn in Hin.
  repeat (destruct Hin as [<- | Hin]; [now vm_compute |]).
  contradiction.
Qed.

Lemma detectCacheHit_age_witness :
  carries_none ({[ "Age" := ["120"] ]} : Header) vendorHeaders
  /\ (detectCacheHit (lib := ascii_lib) {[ "Age" := ["120"] ]} = true <->
      Header_Get {[ "Age" := ["120"] ]} "Age" <> ""
      /\ Header_Get {[ "Age" := ["120"] ]} "Age" <> "0").
Proof.
  split; [apply carries_none_age |].
  apply (detectCacheHit_age (lib := ascii_lib)), carries_none_age.
Defined.

(** The claim as stated fails on a response whose [Age] header is
    present with an empty value: the value is not the literal ["0"],
    yet the classifier answers miss. *)
Lemma detectCacheHit_empty_age_counterexample :
  ~ (forall h : Header,
        carries_none h vendorHeaders ->
        detectCacheHit (lib := ascii_lib) h = true <->
        exists value, carries h "Age" value /\ value <> "0").
Proof.
  intros Hclaim.
  specialize (Hclaim {[ "Age" := [""] ]} (carries_none_age [""])).
  assert (Hmiss : detectCacheHit (lib := ascii_lib) {[ "Age" := [""] ]} = false)
    by (vm_compute; reflexivity).
  rewrite Hmiss in Hclaim. destruct Hclaim as [_ Hhit].
  enough (false = true) by discriminate. apply Hhit.
  exists "". split; [| discriminate].
  exists [""]. split; [now vm_compute | now left].
Qed.

(** ** The worker pool *)

Section PoolFacts.
Context {lib : GoLib}.

Lemma wsum_insert (f : wstate -> nat) (ws : list wstate) (i : nat) (w0 w : wstate) :
  ws !! i = Some w0 ->
  (wsum f (<[i := w]> ws) + f w0 = wsum f ws + f w)%nat.
Proof.
  revert i. induction ws as [| x ws IH]; intros [| i] Hi; try discriminate.
  - injection Hi as ->. cbn. lia.
  - specialize (IH i Hi).
    change (<[S i := w]> (x :: ws)) with (x :: <[i := w]> ws).
    cbn [wsum]. lia.
Qed.

Lemma count_held_wsum (u : string) (ws : list wstate) :
  count_occ string_dec (held_all ws) u
  = wsum (fun w => count_occ string_dec (held w) u) ws.
Proof.
  unfold held_all. induction ws as [| x ws IH]; [reflexivity |].
  cbn [flat_map wsum]. rewrite count_occ_app, IH. reflexivity.
Qed.

Lemma length_held_wsum (ws : list wstate) :
  length (held_all ws) = wsum (fun w => length (held w)) ws.
Proof.
  unfold held_all. induction ws as [| x ws IH]; [reflexivity |].
  cbn [flat_map wsum]. rewrite length_app, IH. reflexivity.
Qed.

Lemma busy_count_wsum (ws : list wstate) :
  busy_count ws = Z.of_nat (wsum (fun w => if is_busy w then 1 else 0)%nat ws).
Proof.
  unfold busy_count. f_equal.
  induction ws as [| x ws IH]; [reflexivity |].
  cbn [List.filter wsum]. destruct (is_busy x); cbn [length]; lia.
Qed.

Lemma busy_count_bounds (ws : list wstate) :
  0 <= busy_count ws <= Z.of_nat (length ws).
Proof.
  unfold busy_count. pose proof (List.filter_length_le is_busy ws). lia.
Qed.

Lemma forallb_done_lookup (ws : list wstate) (i : nat) (w : wstate) :
  forallb is_done ws = true -> ws !! i = Some w -> w = WDone.
Proof.
  revert i. induction ws as [| x ws IH]; intros [| i] Hall Hi;
    cbn in *; try discriminate; apply andb_true_iff in Hall as [Hx Hall].
  - injection Hi as <-. now destruct x.
  - eauto.
Qed.

Lemma forallb_done_held (ws : list wstate) :
  forallb is_done ws = true -> held_all ws = [].
Proof.
  unfold held_all. induction ws as [| x ws IH]; [reflexivity |].
  cbn. intros Hall. apply andb_true_iff in Hall as [Hx Hall].
  destruct x; try discriminate. now apply IH.
Qed.

Lemma forallb_done_insert (ws : list wstate) (i : nat) (w : wstate) :
  forallb is_done (<[i := w]> ws) = true -> (i < length ws)%nat -> w = WDone.
Proof.
  intros Hall Hi.
  apply (forallb_done_lookup _ i w Hall). now apply list_lookup_insert_eq.
Qed.

Lemma URL_warmSegment (u : string) (res : HTTPResult) (elapsed : Z) :
  URL (warmSegment u res elapsed) = u.
Proof. now destruct res. Qed.

Lemma pool_init_inv (maxWorkers : Z) (segments : list string)
    (stats : gmap string CacheStatus) :
  pool_inv maxWorkers segments (pool_init maxWorkers segments stats).
Proof.
  assert (Hheld : forall n, held_all (repeat WIdle n) = []).
  { induction n as [| n IH]; [reflexivity | exact IH]. }
  assert (Hbusy : forall n, busy_count (repeat WIdle n) = 0).
  { unfold busy_count. induction n as [| n IH]; [reflexivity | exact IH]. }
  constructor; cbn.
  - intros u. unfold occurrences. cbn. rewrite Hheld. cbn. lia.
  - rewrite Hheld. cbn. lia.
  - reflexivity.
  - apply repeat_length.
  - discriminate.
  - intros [i Hi]. exfalso.
    apply list_elem_of_lookup_2, list_elem_of_In, repeat_spec in Hi.
    discriminate.
  - discriminate.
  - discriminate.
  - now rewrite Hbusy.
Qed.

(** Unfold one step into the state it produces. *)
Ltac pool_step_inversion Hstep :=
  unfold pool_step in Hstep;
  repeat match type of Hstep with
         | context [match ?x with _ => _ end] =>
             let E := fresh "E" in destruct x eqn:E; try discriminate Hstep
         end;
  injection Hstep as <-.

Ltac case_string_dec :=
  repeat match goal with
         | |- context [string_dec ?a ?b] => destruct (string_dec a b)
         | Hx : context [string_dec ?a ?b] |- _ => destruct (string_dec a b)
         end.

(** How replacing the state of worker [i] changes the ghost sums. *)
Lemma set_worker_facts (ws : list wstate) (i : nat) (w0 w : wstate) :
  ws !! i = Some w0 ->
  (forall u, count_occ string_dec (held_all (<[i := w]> ws)) u
             + count_occ string_dec (held w0) u
             = count_occ string_dec (held_all ws) u
               + count_occ string_dec (held w) u)%nat /\
  (length (held_all (<[i := w]> ws)) + length (held w0)
   = length (held_all ws) + length (held w))%nat /\
  (wsum weight (<[i := w]> ws) + weight w0 = wsum weight ws + weight w)%nat /\
  busy_count (<[i := w]> ws) + (if is_busy w0 then 1 else 0)
  = busy_count ws + (if is_busy w then 1 else 0) /\
  length (<[i := w]> ws) = length ws.
Proof.
  intros Hi. repeat split.
  - intros u. rewrite !count_held_wsum.
    exact (wsum_insert (fun x => count_occ string_dec (held x) u) ws i w0 w Hi).
  - rewrite !length_held_wsum.
    exact (wsum_insert (fun x => length (held x)) ws i w0 w Hi).
  - exact (wsum_insert weight ws i w0 w Hi).
  - rewrite !busy_count_wsum.
    pose proof (wsum_insert (fun x => if is_busy x then 1 else 0)%nat ws i w0 w Hi)
      as B.
    cbv beta in B. destruct (is_busy w0), (is_busy w); lia.
  - apply length_insert.
Qed.

Lemma done_after_insert (ws : list wstate) (i j : nat) (w0 w : wstate) :
  ws !! i = Some w0 -> w <> WDone ->
  <[i := w]> ws !! j = Some WDone -> ws !! j = Some WDone.
Proof.
  intros Hi Hw Hj. destruct (decide (i = j)) as [-> | Hne].
  - rewrite list_lookup_insert_eq in Hj by (eapply lookup_lt_Some; eauto).
    congruence.
  - now rewrite list_lookup_insert_ne in Hj.
Qed.

Lemma not_all_done (ws : list wstate) (i : nat) (w0 : wstate) :
  ws !! i = Some w0 -> w0 <> WDone -> forallb is_done ws = true -> False.
Proof.
  intros Hi Hw Hall. apply Hw. eapply forallb_done_lookup; eauto.
Qed.

(** The facts about the worker that moves in the current step. *)
Ltac worker_facts :=
  match goal with
  | Hw : @lookup _ _ _ _ ?i (workers ?p) = Some ?w0
    |- context [set_worker ?i ?w ?p] =>
      let Fc := fresh "Fc" in
      let Fl := fresh "Fl" in
      let Fb := fresh "Fb" in
      destruct (set_worker_facts _ i w0 w Hw) as (Fc & Fl & _ & Fb & _);
      cbn in Fc, Fl, Fb; rewrite ?URL_warmSegment in Fc;
      pose proof (fun j Hne => done_after_insert _ i j w0 w Hw Hne) as Fdone;
      pose proof (not_all_done _ i w0 Hw) as Fnot
  end.

Ltac inv_field :=
  cbn; unfold set_worker, occurrences; cbn;
  rewrite ?map_app, ?count_occ_app, ?length_app; cbn;
  change (flat_map held) with held_all in *;
  try assumption; try congruence.

(** Every step keeps the invariant. *)
Lemma pool_step_inv (maxWorkers : Z) (segments : list string)
    (a : action) (p p' : pool) :
  pool_inv maxWorkers segments p ->
  pool_step a p = Some p' ->
  pool_inv maxWorkers segments p'.
Proof.
  intros [Iocc Ilen Icap Iws Icl Idone Ircl Iret Iinf] Hstep.
  unfold occurrences in Iocc.
  destruct a; pool_step_inversion Hstep; subst; try worker_facts;
    (constructor;
     [ (* inv_occ *)
       intros u; specialize (Iocc u); try specialize (Fc u); inv_field;
       cbn in Iocc; case_string_dec; try congruence; lia
     | (* inv_len *) inv_field; cbn in Ilen; lia
     | (* inv_cap *) inv_field
     | (* inv_workers *) inv_field; rewrite ?length_insert; assumption
     | (* inv_closed *) inv_field
     | (* inv_done *) | (* inv_rclosed *) | (* inv_returned *)
     | (* inv_inflight *) inv_field; try lia ]).
  all: inv_field.
  all: try (intros Hx; specialize (Icl Hx); discriminate).
  all: try (intros [j Hj]; apply Fdone in Hj; [| discriminate];
            destruct (Idone (ex_intro _ j Hj)); split; congruence).
  all: try (intros Hr; destruct (Ircl Hr) as [_ Hall]; exfalso;
            apply Fnot; [discriminate | exact Hall]).
  all: try (intros Hd; destruct (Idone Hd) as [Hc _]; first
              [ specialize (Icl Hc); discriminate | congruence ]).
  all: try (intros Hr; destruct (Ircl Hr) as [Hc _]; congruence).
  all: repeat match goal with
             | Hx : _ && _ = true |- _ =>
                 apply andb_true_iff in Hx; destruct Hx
             end.
  all: intros _; split; first [assumption | reflexivity].
Qed.

Lemma pool_run_inv (maxWorkers : Z) (segments : list string)
    (schedule : list action) :
  forall p p', pool_inv maxWorkers segments p ->
               pool_run schedule p = Some p' ->
               pool_inv maxWorkers segments p'.
Proof.
  induction schedule as [| a rest IH]; intros p p' Hinv Hrun; cbn in Hrun.
  - now injection Hrun as <-.
  - destruct (pool_step a p) as [q |] eqn:Hstep; [| discriminate].
    eapply IH; [| exact Hrun]. eapply pool_step_inv; eauto.
Qed.

(** Every step lowers the measure: no run is infinite. *)
Lemma pool_step_measure (a : action) (p p' : pool) :
  pool_step a p = Some p' -> (pool_measure p' < pool_measure p)%nat.
Proof.
  intros Hstep. unfold pool_measure.
  destruct a; pool_step_inversion Hstep; subst; cbn;
    try match goal with
        | Hw : @lookup _ _ _ _ ?i (workers ?p) = Some ?w0
          |- context [set_worker ?i ?w ?p] =>
            destruct (set_worker_facts _ i w0 w Hw) as (_ & _ & Fw & _ & _);
            unfold set_worker; cbn in Fw
        end;
    rewrite ?length_app; cbn;
    repeat match goal with
           | Hx : _ && _ = true |- _ => apply andb_true_iff in Hx; destruct Hx
           | Hx : negb _ = true |- _ => apply negb_true_iff in Hx
           | Hx : ?b = _ |- context [flag_cost ?b] => rewrite Hx
           end;
    cbn; lia.
Qed.

Lemma pool_run_measure (schedule : list action) :
  forall p p', pool_run schedule p = Some p' ->
               (length schedule + pool_measure p' <= pool_measure p)%nat.
Proof.
  induction schedule as [| a rest IH]; intros p p' Hrun; cbn in Hrun.
  - injection Hrun as <-. cbn [length]. lia.
  - destruct (pool_step a p) as [q |] eqn:Hstep; [| discriminate].
    apply IH in Hrun. apply pool_step_measure in Hstep. cbn [length]. lia.
Qed.

Lemma pool_measure_init (maxWorkers : Z) (segments : list string)
    (stats : gmap string CacheStatus) :
  pool_measure (pool_init maxWorkers segments stats)
  = (5 * length segments + Z.to_nat maxWorkers + 3)%nat.
Proof.
  unfold pool_measure. cbn.
  assert (Hw : forall n, wsum weight (repeat WIdle n) = n).
  { induction n as [| n IH]; cbn; [reflexivity | now rewrite IH]. }
  rewrite Hw. lia.
Qed.

Lemma some_worker_left (ws : list wstate) :
  forallb is_done ws = true \/
  exists i w, ws !! i = Some w /\ w <> WDone.
Proof.
  induction ws as [| x ws [IH | (i & w & Hi & Hw)]].
  - now left.
  - destruct x; cbn; try (now left);
      right; exists 0%nat; eexists; (split; [reflexivity | discriminate]).
  - right. exists (S i), w. now split.
Qed.

Lemma wsum_lookup_le (f : wstate -> nat) (ws : list wstate) (i : nat) (w : wstate) :
  ws !! i = Some w -> (f w <= wsum f ws)%nat.
Proof.
  revert i. induction ws as [| x ws IH]; intros [| i] Hi; try discriminate.
  - injection Hi as ->. cbn. lia.
  - cbn. specialize (IH i Hi). lia.
Qed.

(** No deadlock: before the call has returned some goroutine can move. *)
Lemma pool_progress (maxWorkers : Z) (segments : list string) (p : pool) :
  pool_inv maxWorkers segments p ->
  returned p = false ->
  exists a p', pool_step a p = Some p'.
Proof.
  intros [Iocc Ilen Icap Iws Icl Idone Ircl Iret Iinf] Hret.
  destruct (pending p) as [| s l] eqn:Hpend.
  2: { exists ASend. unfold pool_step. rewrite Hret, Hpend.
       destruct (Nat.ltb_spec (length (jobs p)) (capacity p))
         as [Hlt | Hge]; [eauto |].
       cbn in Ilen. lia. }
  destruct (jobsClosed p) eqn:Hcl.
  2: { exists ACloseJobs. unfold pool_step. rewrite Hret, Hpend, Hcl. eauto. }
  destruct (results p) as [| r rs] eqn:Hres.
  2: { exists ACollect. unfold pool_step. rewrite Hret, Hres, Hcl. eauto. }
  destruct (some_worker_left (workers p)) as [Hall | (i & w & Hi & Hw)].
  { destruct (resultsClosed p) eqn:Hrc.
    - exists AReturn. unfold pool_step. rewrite Hret, Hres, Hcl, Hrc. eauto.
    - exists ACloseResults. unfold pool_step. rewrite Hret, Hcl, Hrc, Hall.
      eauto. }
  destruct w as [| u | r |]; [| | | congruence].
  - destruct (jobs p) as [| u js] eqn:Hjobs.
    + exists (AExit i). unfold pool_step. rewrite Hret, Hi, Hjobs, Hcl. eauto.
    + exists (ATake i). unfold pool_step. rewrite Hret, Hi, Hjobs. eauto.
  - exists (AFinish i (RequestError "") 0). unfold pool_step.
    rewrite Hret, Hi. eauto.
  - exists (AEmit i). unfold pool_step. rewrite Hret, Hi, Hres.
    destruct (Nat.ltb_spec (length (@nil CacheStatus)) (capacity p))
      as [Hlt | Hge]; [eauto |].
    pose proof (wsum_lookup_le (fun x => length (held x)) _ _ _ Hi) as Hle.
    rewrite <- length_held_wsum in Hle. cbn in Hle, Ilen, Hge. lia.
Qed.

(** From every state of a call some schedule leads to the [return]. *)
Lemma pool_can_return (maxWorkers : Z) (segments : list string) :
  forall (n : nat) (p : pool),
    (pool_measure p <= n)%nat ->
    pool_inv maxWorkers segments p ->
    exists schedule p',
      pool_run schedule p = Some p' /\ returned p' = true.
Proof.
  induction n as [| n IH]; intros p Hn Hinv.
  - destruct (returned p) eqn:Hret; [exists [], p; now split |].
    destruct (pool_progress _ _ _ Hinv Hret) as (a & q & Hstep).
    apply pool_step_measure in Hstep. lia.
  - destruct (returned p) eqn:Hret; [exists [], p; now split |].
    destruct (pool_progress _ _ _ Hinv Hret) as (a & q & Hstep).
    destruct (IH q) as (rest & p' & Hrun & Hdone).
    + apply pool_step_measure in Hstep. lia.
    + eapply pool_step_inv; eauto.
    + exists (a :: rest), p'. cbn. rewrite Hstep. now split.
Qed.

(** After the [return], with at least one worker, the results are the
    segments, each exactly as often as it was submitted. *)
Lemma pool_returned_results (maxWorkers : Z) (segments : list string) (p : pool) :
  1 <= maxWorkers ->
  pool_inv maxWorkers segments p ->
  returned p = true ->
  Permutation (map URL (allResults p)) segments
  /\ length (allResults p) = length segments.
Proof.
  intros HN [Iocc Ilen Icap Iws Icl Idone Ircl Iret Iinf] Hret.
  destruct (Iret Hret) as [Hres Hrc].
  destruct (Ircl Hrc) as [Hcl Hall].
  assert (Hjobs : jobs p = []).
  { destruct (workers p) as [| w ws] eqn:Hws; [cbn in Iws; lia |].
    apply Idone. exists 0%nat. cbn. f_equal.
    cbn in Hall. apply andb_true_iff in Hall as [Hw _]. now destruct w. }
  pose proof (forallb_done_held _ Hall) as Hheld.
  pose proof (Icl Hcl) as Hpend.
  split.
  - apply (Permutation_count_occ string_dec). intros u. specialize (Iocc u).
    unfold occurrences in Iocc. rewrite Hpend, Hjobs, Hheld, Hres in Iocc.
    cbn in Iocc. lia.
  - rewrite Hpend, Hjobs, Hheld, Hres in Ilen. cbn in Ilen. lia.
Qed.

(** C1.  For every list of segment URLs and every worker count
    [maxWorkers >= 1], the Fetch Executor [warmSegments] returns exactly
    one outcome per submitted URL: under every schedule that reaches the
    [return], the URLs of the outcomes are a permutation of the input
    (no duplicates, no omissions) and there are as many outcomes as
    inputs.  The call does return: some schedule reaches the [return],
    no state before it is stuck, and no run is longer than
    [5 * len(segments) + maxWorkers + 3] steps. *)
Theorem warmSegments_one_outcome_per_url
    (maxWorkers : Z) (segments : list string) (stats : gmap string CacheStatus) :
  1 <= maxWorkers ->
  (forall schedule out,
      warmSegments maxWorkers segments stats schedule = Some out ->
      Permutation (map URL out) segments /\ length out = length segments)
  /\ (exists schedule out,
         warmSegments maxWorkers segments stats schedule = Some out)
  /\ (forall schedule p,
         pool_run schedule (pool_init maxWorkers segments stats) = Some p ->
         returned p = false ->
         exists a p', pool_step a p = Some p')
  /\ (forall schedule p,
         pool_run schedule (pool_init maxWorkers segments stats) = Some p ->
         (length schedule <= 5 * length segments + Z.to_nat maxWorkers + 3)%nat).
Proof.
  intros HN.
  pose proof (pool_init_inv maxWorkers segments stats) as Hinit.
  split; [| split; [| split]].
  - intros schedule out Hout. unfold warmSegments in Hout.
    destruct (pool_run schedule _) as [p |] eqn:Hrun; [| discriminate].
    destruct (returned p) eqn:Hret; [| discriminate].
    injection Hout as <-.
    eapply pool_returned_results; eauto using pool_run_inv.
  - destruct (pool_can_return maxWorkers segments _ _ (Nat.le_refl _) Hinit)
      as (schedule & p & Hrun & Hret).
    exists schedule, (allResults p). unfold warmSegments.
    now rewrite Hrun, Hret.
  - intros schedule p Hrun Hret.
    eapply pool_progress; eauto using pool_run_inv.
  - intros schedule p Hrun.
    apply pool_run_measure in Hrun.
    rewrite pool_measure_init in Hrun. lia.
Qed.

(** C9.  For every worker count [maxWorkers >= 1] and every segment
    list, at every point of every run of one [warmSegments] call the
    number of requests in flight is the number of workers inside
    [warmSegment], and it never exceeds [maxWorkers]. *)
Theorem warmSegments_inflight_bound
    (maxWorkers : Z) (segments : list string) (stats : gmap string CacheStatus)
    (schedule : list action) (p : pool) :
  1 <= maxWorkers ->
  pool_run schedule (pool_init maxWorkers segments stats) = Some p ->
  inflight p = busy_count (workers p) /\ 0 <= inflight p <= maxWorkers.
Proof.
  intros HN Hrun.
  pose proof (pool_run_inv _ _ _ _ _
                (pool_init_inv maxWorkers segments stats) Hrun) as Hinv.
  destruct Hinv as [_ _ _ Iws _ _ _ _ Iinf].
  split; [exact Iinf |].
  pose proof (busy_count_bounds (workers p)). lia.
Qed.

End PoolFacts.

(** A run of two workers on two segments: worker 1 answers first, so
    its outcome comes first. *)
Example warmSegments_two_workers :
  let ok := ResponseOK 200 ∅ in
  option_map (map URL)
    (warmSegments (lib := ascii_lib) 2 ["a.ts"; "b.ts"] ∅
       [ASend; ATake 0; ASend; ATake 1; ACloseJobs;
        AFinish 1 ok 5; AEmit 1; AFinish 0 ok 9; ACollect; AEmit 0;
        AExit 1; AExit 0; ACloseResults; ACollect; AReturn])
  = Some ["b.ts"; "a.ts"].
Proof. vm_compute. reflexivity. Qed.

(** With no worker at all the call returns at once and empty-handed. *)
Example warmSegments_no_worker :
  option_map (map URL)
    (warmSegments (lib := ascii_lib) 0 ["a.ts"; "b.ts"] ∅
       [ASend; ASend; ACloseJobs; ACloseResults; AReturn])
  = Some [].
Proof. vm_compute. reflexivity. Qed.

Lemma warmSegments_one_outcome_per_url_witness :
  1 <= 2 /\
  forall schedule out,
    warmSegments (lib := ascii_lib) 2 ["a.ts"; "b.ts"] ∅ schedule = Some out ->
    Permutation (map URL out) ["a.ts"; "b.ts"] /\ length out = 2%nat.
Proof.
  split; [lia |].
  apply (warmSegments_one_outcome_per_url (lib := ascii_lib) 2 ["a.ts"; "b.ts"] ∅).
  lia.
Defined.

Lemma warmSegments_inflight_bound_witness :
  1 <= 2 /\
  exists p,
    pool_run (lib := ascii_lib) [ASend; ASend; ATake 0; ATake 1]
      (pool_init 2 ["a.ts"; "b.ts"] ∅) = Some p
    /\ inflight p = 2
    /\ inflight p = busy_count (workers p) /\ 0 <= inflight p <= 2.
Proof.
  split; [lia |]. eexists. split; [vm_compute; reflexivity |].
  split; [reflexivity |].
  apply (warmSegments_inflight_bound (lib := ascii_lib) 2 ["a.ts"; "b.ts"] ∅
           [ASend; ASend; ATake 0; ATake 1]); [lia | vm_compute; reflexivity].
Defined.

(** ** The activity flag *)

Section DaemonFacts.

Lemma active_begin (stream s : string) (d : daemon) :
  active d stream = false ->
  active (snd (beginStreamProcessing stream d)) s
  = if decide (stream = s) then true else active d s.
Proof.
  intros Hoff. unfold beginStreamProcessing. rewrite Hoff. cbn.
  unfold active. cbn. rewrite lookup_insert. now destruct (decide (stream = s)).
Qed.

Lemma active_end (stream s : string) (d : daemon) :
  active (endStreamProcessing stream d) s
  = if decide (stream = s) then false else active d s.
Proof.
  unfold endStreamProcessing, active. cbn. rewrite lookup_delete.
  now destruct (decide (stream = s)).
Qed.

Lemma count_remove_cycle (stream s : string) (l : list string) :
  count_occ string_dec (remove_cycle stream l) s
  = if decide (stream = s)
    then Nat.pred (count_occ string_dec l s)
    else count_occ string_dec l s.
Proof.
  induction l as [| x l IH]; cbn.
  - now destruct (decide (stream = s)).
  - destruct (String.eqb_spec x stream) as [-> | Hx].
    + destruct (decide (stream = s)) as [-> | Hs].
      * destruct (string_dec s s); [reflexivity | congruence].
      * destruct (string_dec stream s); [congruence | reflexivity].
    + cbn. rewrite IH. destruct (decide (stream = s)) as [-> | Hs].
      * destruct (string_dec x s); [congruence | reflexivity].
      * reflexivity.
Qed.

Lemma existsb_running (stream : string) (l : list string) :
  existsb (String.eqb stream) l = true ->
  (1 <= count_occ string_dec l stream)%nat.
Proof.
  intros Hex. apply existsb_exists in Hex as (x & Hin & Heq).
  apply String.eqb_eq in Heq. subst x.
  now apply (count_occ_In string_dec).
Qed.

Lemma daemon_init_inv : flag_counts_cycle daemon_init.
Proof. intros stream. reflexivity. Qed.

Lemma tick_inactive (stream : string) (d : daemon) :
  active d stream = false ->
  scheduleStreamWarm stream d
  = {| streamActive := <[stream := true]> (streamActive d);
       cycles := stream :: cycles d |}.
Proof.
  intros Hoff. unfold scheduleStreamWarm, beginStreamProcessing.
  now rewrite Hoff.
Qed.

Lemma tick_active (stream : string) (d : daemon) :
  active d stream = true -> scheduleStreamWarm stream d = d.
Proof.
  intros Hon. unfold scheduleStreamWarm, beginStreamProcessing.
  now rewrite Hon.
Qed.

Lemma daemon_step_inv (e : event) (d d' : daemon) :
  flag_counts_cycle d -> daemon_step e d = Some d' -> flag_counts_cycle d'.
Proof.
  intros Hinv Hstep s. destruct e as [stream | stream ok]; cbn in Hstep.
  - injection Hstep as <-.
    destruct (active d stream) eqn:Hact.
    + rewrite tick_active by assumption. apply Hinv.
    + rewrite tick_inactive by assumption.
      unfold running, active. cbn. rewrite lookup_insert.
      specialize (Hinv s). unfold running in Hinv.
      destruct (decide (stream = s)) as [-> | Hne].
      * rewrite Hact in Hinv.
        destruct (string_dec s s); [lia | congruence].
      * destruct (string_dec stream s); [congruence | exact Hinv].
  - destruct (existsb (String.eqb stream) (cycles d)) eqn:Hex; [| discriminate].
    injection Hstep as <-. apply existsb_running in Hex.
    unfold running, active. cbn. rewrite lookup_delete, count_remove_cycle.
    pose proof (Hinv s) as Hs. pose proof (Hinv stream) as Hst.
    unfold running in Hs, Hst.
    destruct (decide (stream = s)) as [-> | Hne]; [| exact Hs].
    destruct (active d s); lia.
Qed.

Lemma daemon_run_inv (events : list event) :
  forall d d', flag_counts_cycle d -> daemon_run events d = Some d' ->
               flag_counts_cycle d'.
Proof.
  induction events as [| e rest IH]; intros d d' Hinv Hrun; cbn in Hrun.
  - now injection Hrun as <-.
  - destruct (daemon_step e d) as [q |] eqn:Hstep; [| discriminate].
    eapply IH; [| exact Hrun]. eapply daemon_step_inv; eauto.
Qed.

(** C2.  For every playlist at most one warm cycle is active at any
    instant: in every state the daemon reaches, a stream has at most one
    running cycle and its flag is set exactly when it has one; a tick
    that finds the flag set changes nothing and is not blocked (no cycle
    is started, nothing is queued); a tick that finds it clear starts
    the one cycle; and the flag is cleared exactly by the completion of
    the cycle's routine, whether it succeeded or failed. *)
Theorem one_cycle_per_stream (events : list event) (d : daemon) :
  daemon_run events daemon_init = Some d ->
  (forall stream,
      (running d stream <= 1)%nat
      /\ (active d stream = true <-> running d stream = 1%nat))
  /\ (forall stream,
         active d stream = true -> daemon_step (Tick stream) d = Some d)
  /\ (forall stream,
         active d stream = false ->
         exists d', daemon_step (Tick stream) d = Some d'
                    /\ active d' stream = true /\ running d' stream = 1%nat)
  /\ (forall stream ok d',
         daemon_step (Complete stream ok) d = Some d' ->
         active d stream = true /\ active d' stream = false
         /\ running d' stream = 0%nat)
  /\ (forall e d' stream,
         daemon_step e d = Some d' ->
         active d stream = true -> active d' stream = false ->
         exists ok, e = Complete stream ok).
Proof.
  intros Hrun.
  pose proof (daemon_run_inv _ _ _ daemon_init_inv Hrun) as Hinv.
  split; [| split; [| split; [| split]]].
  - intros stream. specialize (Hinv stream).
    destruct (active d stream); split; try lia; split; congruence || lia.
  - intros stream Hon. cbn. now rewrite tick_active.
  - intros stream Hoff. eexists. split; [reflexivity |].
    assert (Hinv' : flag_counts_cycle (scheduleStreamWarm stream d))
      by (eapply (daemon_step_inv (Tick stream)); [exact Hinv | reflexivity]).
    specialize (Hinv' stream).
    assert (Hon : active (scheduleStreamWarm stream d) stream = true).
    { rewrite tick_inactive by assumption. unfold active. cbn.
      now rewrite lookup_insert_eq. }
    rewrite Hon in Hinv'. now split.
  - intros stream ok d' Hstep.
    pose proof (daemon_step_inv _ _ _ Hinv Hstep stream) as Hinv'.
    cbn in Hstep.
    destruct (existsb (String.eqb stream) (cycles d)) eqn:Hex; [| discriminate].
    injection Hstep as <-. apply existsb_running in Hex.
    specialize (Hinv stream). unfold running in Hinv.
    assert (Hoff : active {| streamActive := delete stream (streamActive d);
                             cycles := remove_cycle stream (cycles d) |} stream
                   = false).
    { unfold active. cbn. now rewrite lookup_delete_eq. }
    cbn in Hinv'. rewrite Hoff in Hinv'.
    destruct (active d stream); [now repeat split | lia].
  - intros e d' stream Hstep Hon Hoff.
    destruct e as [s | s ok]; cbn in Hstep.
    + exfalso. injection Hstep as <-.
      destruct (active d s) eqn:Hs.
      * rewrite tick_active in Hoff by assumption. congruence.
      * rewrite tick_inactive in Hoff by assumption.
        unfold active in Hoff, Hon. cbn in Hoff.
        rewrite lookup_insert in Hoff.
        destruct (decide (s = stream)); congruence.
    + destruct (existsb (String.eqb s) (cycles d)); [| discriminate].
      injection Hstep as <-. unfold active in Hoff, Hon. cbn in Hoff.
      rewrite lookup_delete in Hoff.
      destruct (decide (s = stream)) as [-> | Hne]; [eauto | congruence].
Qed.

End DaemonFacts.

(** Two ticks while the first cycle has not completed: one cycle runs. *)
Example two_ticks_one_cycle :
  option_map cycles
    (daemon_run [Tick "live.m3u8"; Tick "live.m3u8"] daemon_init)
  = Some ["live.m3u8"]
  /\ option_map cycles
       (daemon_run [Tick "live.m3u8"; Complete "live.m3u8" false;
                    Tick "live.m3u8"] daemon_init)
     = Some ["live.m3u8"].
Proof. split; vm_compute; reflexivity. Qed.

Lemma one_cycle_per_stream_witness :
  exists d,
    daemon_run [Tick "live.m3u8"; Tick "live.m3u8"] daemon_init = Some d
    /\ cycles d = ["live.m3u8"]
    /\ forall stream,
        (running d stream <= 1)%nat
        /\ (active d stream = true <-> running d stream = 1%nat).
Proof.
  eexists. split; [vm_compute; reflexivity |].
  split; [reflexivity |].
  apply (one_cycle_per_stream [Tick "live.m3u8"; Tick "live.m3u8"]).
  vm_compute. reflexivity.
Defined.

(** ** The dedup ledger *)

Section LedgerFacts.
Variable clock : Clock.
Variable processedTTL : Z.

(** The first loop only ever adds to [newSegments]. *)
Lemma selectNew_keeps (segments : list string) :
  forall newSegments processed k x,
    In x newSegments ->
    In x (selectNew clock processedTTL segments newSegments processed k).1.1.
Proof.
  induction segments as [| seg rest IH]; intros ns pr k x Hin; [exact Hin |].
  cbn [selectNew]. destruct (pr !! seg) as [last |].
  - destruct (clock k - last >? processedTTL); apply IH;
      [apply in_or_app; now left | exact Hin].
  - apply IH. apply in_or_app. now left.
Qed.

(** A segment whose stamp is fresh at every clock reading of the tick
    is passed over: it does not become new and keeps its stamp. *)
Lemma selectNew_fresh (s : string) (T : Z) (segments : list string) :
  (forall j, clock j - T <= processedTTL) ->
  forall newSegments processed k,
    processed !! s = Some T ->
    ~ In s newSegments ->
    let '(new, processed', _) :=
      selectNew clock processedTTL segments newSegments processed k in
    ~ In s new /\ processed' !! s = Some T.
Proof.
  intros Hfresh.
  induction segments as [| seg rest IH]; intros ns pr k Hs Hnot; [now split |].
  cbn [selectNew].
  destruct (decide (seg = s)) as [-> | Hne].
  - rewrite Hs.
    destruct (Z.gtb_spec (clock k - T) processedTTL) as [Hgt | _];
      [specialize (Hfresh k); lia |].
    now apply IH.
  - assert (Hns : ~ In s (ns ++ [seg])).
    { intros Hin. apply in_app_or in Hin as [Hin | [Hin | []]]; congruence. }
    destruct (pr !! seg) as [last |].
    + destruct (clock k - last >? processedTTL).
      * apply IH; [now rewrite lookup_insert_ne | exact Hns].
      * now apply IH.
    + apply IH; [now rewrite lookup_insert_ne | exact Hns].
Qed.

(** Once a segment is new and stamped with a reading of this tick, it
    stays so through the rest of the loop. *)
Lemma selectNew_stamped (s : string) (segments : list string) :
  forall newSegments processed k,
    In s newSegments ->
    (exists j, processed !! s = Some (clock j)) ->
    let '(new, processed', _) :=
      selectNew clock processedTTL segments newSegments processed k in
    In s new /\ exists j, processed' !! s = Some (clock j).
Proof.
  induction segments as [| seg rest IH]; intros ns pr k Hin Hst; [now split |].
  cbn [selectNew].
  assert (Hin' : In s (ns ++ [seg])) by (apply in_or_app; now left).
  assert (Hst' : forall j, exists j',
               <[seg := clock j]> pr !! s = Some (clock j')).
  { intros j. destruct (decide (seg = s)) as [-> | Hne].
    - exists j. now rewrite lookup_insert_eq.
    - rewrite lookup_insert_ne by assumption. exact Hst. }
  destruct (pr !! seg) as [last |].
  - destruct (clock k - last >? processedTTL); now apply IH.
  - now apply IH.
Qed.

(** A segment of the playlist whose stamp has expired at every clock
    reading of the tick becomes new and is stamped with a reading of
    this tick. *)
Lemma selectNew_expired (s : string) (T : Z) (segments : list string) :
  (forall j, clock j - T > processedTTL) ->
  In s segments ->
  forall newSegments processed k,
    processed !! s = Some T \/
    (In s newSegments /\ exists j, processed !! s = Some (clock j)) ->
    let '(new, processed', _) :=
      selectNew clock processedTTL segments newSegments processed k in
    In s new /\ exists j, processed' !! s = Some (clock j).
Proof.
  intros Hexp.
  induction segments as [| seg rest IH]; intros Hin ns pr k Hs; [contradiction |].
  destruct Hs as [Hs | [Hns Hst]].
  2: { apply selectNew_stamped; assumption. }
  cbn [selectNew].
  destruct (decide (seg = s)) as [-> | Hne].
  - rewrite Hs.
    destruct (Z.gtb_spec (clock k - T) processedTTL) as [_ | Hle];
      [| specialize (Hexp k); lia].
    apply selectNew_stamped.
    + apply in_or_app. right. now left.
    + exists (S k). now rewrite lookup_insert_eq.
  - destruct Hin as [Heq | Hin]; [congruence |].
    destruct (pr !! seg) as [last |].
    + destruct (clock k - last >? processedTTL).
      * apply IH; [exact Hin |]. left. now rewrite lookup_insert_ne.
      * apply IH; [exact Hin |]. now left.
    + apply IH; [exact Hin |]. left. now rewrite lookup_insert_ne.
Qed.

(** When every segment is in the ledger and fresh, the first loop
    selects nothing and leaves the ledger alone; it reads the clock
    once per segment. *)
Lemma selectNew_all_fresh (segments : list string) :
  forall newSegments processed k,
    (forall x, In x segments ->
               exists T, processed !! x = Some T
                         /\ forall j, clock j - T <= processedTTL) ->
    selectNew clock processedTTL segments newSegments processed k
    = (newSegments, processed, (k + length segments)%nat).
Proof.
  induction segments as [| seg rest IH]; intros ns pr k Hall.
  - cbn. f_equal. lia.
  - cbn [selectNew].
    destruct (Hall seg (or_introl eq_refl)) as (T & -> & Hfresh).
    destruct (Z.gtb_spec (clock k - T) processedTTL) as [Hgt | _];
      [specialize (Hfresh k); lia |].
    rewrite IH by (intros x Hx; apply Hall; now right).
    cbn [length]. f_equal. lia.
Qed.

(** The re-warm loop: what it selects and what it stamps. *)
Lemma rewarmTail_spec (tail : list string) :
  forall newSegments included processed k,
    let '(fetch, processed', _) :=
      rewarmTail clock tail newSegments included processed k in
    (forall x, In x newSegments -> In x fetch)
    /\ (forall x, In x fetch -> In x newSegments \/ In x tail)
    /\ (forall x, x ∉ included -> In x tail -> In x fetch)
    /\ (forall x, In x tail -> exists j, processed' !! x = Some (clock j))
    /\ (forall x, ~ In x tail -> processed' !! x = processed !! x).
Proof.
  induction tail as [| s rest IH]; intros ns inc pr k.
  - cbn. repeat split; tauto.
  - cbn [rewarmTail].
    destruct (decide (s ∈ inc)) as [Hin | Hnin].
    + specialize (IH ns inc (<[s := clock k]> pr) (S k)).
      destruct (rewarmTail clock rest ns inc (<[s := clock k]> pr) (S k))
        as [[fetch pr'] k'].
      destruct IH as (I1 & I2 & I3 & I4 & I5).
      repeat split.
      * exact I1.
      * intros x Hx. destruct (I2 x Hx); [now left | right; now right].
      * intros x Hx [<- | Hr]; [contradiction | now apply I3].
      * intros x [<- | Hr]; [| now apply I4].
        destruct (in_dec string_dec s rest) as [Hr | Hr]; [now apply I4 |].
        exists k. rewrite (I5 s Hr). now rewrite lookup_insert_eq.
      * intros x Hx. rewrite I5 by (intros Hr; apply Hx; now right).
        apply lookup_insert_ne. intros ->. apply Hx. now left.
    + specialize (IH (ns ++ [s])%list ({[ s ]} ∪ inc) (<[s := clock k]> pr) (S k)).
      destruct (rewarmTail clock rest (ns ++ [s])%list ({[ s ]} ∪ inc)
                  (<[s := clock k]> pr) (S k)) as [[fetch pr'] k'].
      destruct IH as (I1 & I2 & I3 & I4 & I5).
      repeat split.
      * intros x Hx. apply I1, in_or_app. now left.
      * intros x Hx. destruct (I2 x Hx) as [Hx' | Hx']; [| right; now right].
        apply in_app_or in Hx' as [Hx' | [<- | []]];
          [now left | right; now left].
      * intros x Hx [<- | Hr].
        -- apply I1, in_or_app. right. now left.
        -- destruct (decide (x = s)) as [-> | Hne].
           ++ apply I1, in_or_app. right. now left.
           ++ apply I3; [| exact Hr].
              intros Hu. apply elem_of_union in Hu as [Hu | Hu];
                [apply elem_of_singleton in Hu; congruence | contradiction].
      * intros x [<- | Hr]; [| now apply I4].
        destruct (in_dec string_dec s rest) as [Hr | Hr]; [now apply I4 |].
        exists k. rewrite (I5 s Hr). now rewrite lookup_insert_eq.
      * intros x Hx. rewrite I5 by (intros Hr; apply Hx; now right).
        apply lookup_insert_ne. intros ->. apply Hx. now left.
Qed.

End LedgerFacts.

Section LedgerClaims.

Lemma selectSegments_unfold (clock : Clock) (ttl rewarmLast : Z)
    (segments : list string) (processed : gmap string Z) :
  selectSegments clock ttl rewarmLast segments processed
  = if rewarmLast >? 0
    then rewarmTail clock (lastSegments rewarmLast segments)
           (newSet clock ttl segments processed)
           (list_to_set (newSet clock ttl segments processed))
           (selectNew clock ttl segments [] processed 0).1.2
           (selectNew clock ttl segments [] processed 0).2
    else selectNew clock ttl segments [] processed 0.
Proof.
  unfold selectSegments, newSet.
  destruct (selectNew clock ttl segments [] processed 0) as [[ns pr] k].
  reflexivity.
Qed.

(** C4 (as amended).  Let the ledger entry of a segment of the playlist
    be stamped [T] and the time-to-live be non-negative.  A tick at
    [T + TTL/2] leaves the segment out of the "new" set, and its first
    loop leaves the stamp alone.  What the whole tick does then depends
    on the rewarm-last policy: if the policy selects the segment
    (rewarm-last N > 0 and the segment among the last N of the
    playlist), the segment is fetched on that tick and its ledger entry
    is stamped with the time of the tick; otherwise it is not fetched
    and its stamp is still [T] after the tick.  A tick at
    [T + TTL + eps], for any [eps > 0], takes it into the "new" set
    again, fetches it, and stamps its ledger entry with the time of
    that tick. *)
Theorem ledger_ttl (processedTTL rewarmLast T eps : Z)
    (segments : list string) (processed : gmap string Z) (s : string) :
  0 <= processedTTL -> 0 < eps ->
  In s segments -> processed !! s = Some T ->
  let half := tick_at (T + processedTTL ÷ 2) in
  let late := tick_at (T + processedTTL + eps) in
  let rewarmed := 0 < rewarmLast /\ In s (lastSegments rewarmLast segments) in
  (~ In s (newSet half processedTTL segments processed)
   /\ (selectNew half processedTTL segments [] processed 0).1.2 !! s = Some T)
  /\ (In s (fetchSet half processedTTL rewarmLast segments processed) <->
      rewarmed)
  /\ (rewarmed ->
      ledgerAfter half processedTTL rewarmLast segments processed !! s
      = Some (T + processedTTL ÷ 2))
  /\ (~ rewarmed ->
      ledgerAfter half processedTTL rewarmLast segments processed !! s
      = Some T)
  /\ In s (newSet late processedTTL segments processed)
  /\ In s (fetchSet late processedTTL rewarmLast segments processed)
  /\ ledgerAfter late processedTTL rewarmLast segments processed !! s
     = Some (T + processedTTL + eps).
Proof.
  intros Httl Heps Hin Hs half late rewarmed.
  assert (Hhalf : forall j, half j - T <= processedTTL).
  { intros j. unfold half, tick_at.
    pose proof (Z.quot_pos processedTTL 2 Httl ltac:(lia)).
    assert (processedTTL ÷ 2 <= processedTTL); [| lia].
    apply Z.quot_le_upper_bound; lia. }
  assert (Hlate : forall j, late j - T > processedTTL)
    by (intros j; unfold late, tick_at; lia).
  pose proof (selectNew_fresh half processedTTL s T segments Hhalf
                [] processed 0%nat Hs (fun F => F)) as Hfresh.
  pose proof (selectNew_expired late processedTTL s T segments Hlate Hin
                [] processed 0%nat (or_introl Hs)) as Hexp.
  unfold fetchSet, ledgerAfter. rewrite !selectSegments_unfold.
  unfold newSet in *.
  destruct (selectNew half processedTTL segments [] processed 0)
    as [[new1 pr1] k1].
  destruct (selectNew late processedTTL segments [] processed 0)
    as [[new2 pr2] k2].
  cbn [fst snd] in *. destruct Hfresh as [Hnot Hkeep].
  destruct Hexp as [Hnew (j & Hstamp)]. unfold late, tick_at in Hstamp.
  split; [now split |].
  assert (Hhalf_tick :
    let sel := if rewarmLast >? 0
               then rewarmTail half (lastSegments rewarmLast segments)
                      new1 (list_to_set new1) pr1 k1
               else (new1, pr1, k1) in
    (In s sel.1.1 <-> rewarmed)
    /\ (rewarmed -> sel.1.2 !! s = Some (T + processedTTL ÷ 2))
    /\ (~ rewarmed -> sel.1.2 !! s = Some T)).
  { unfold rewarmed.
    destruct (Z.gtb_spec rewarmLast 0) as [Hpos | Hoff]; cbv zeta.
    - pose proof (rewarmTail_spec half (lastSegments rewarmLast segments)
                    new1 (list_to_set new1) pr1 k1) as Hspec.
      destruct (rewarmTail half _ new1 _ pr1 k1) as [[fetch pr'] k'].
      destruct Hspec as (_ & I2 & I3 & I4 & I5). cbn [fst snd].
      split; [split |]; [| | split].
      + intros Hf. split; [lia |]. destruct (I2 s Hf); [contradiction | easy].
      + intros [_ Ht]. apply I3; [| exact Ht].
        rewrite elem_of_list_to_set, list_elem_of_In. exact Hnot.
      + intros [_ Ht]. destruct (I4 s Ht) as [j' ->]. reflexivity.
      + intros Hno. rewrite I5; [exact Hkeep |].
        intros Ht. apply Hno. split; [lia | exact Ht].
    - cbn [fst snd]. split; [split |]; [| | split].
      + contradiction.
      + intros [Hpos _]. lia.
      + intros [Hpos _]. lia.
      + intros _. exact Hkeep. }
  cbv zeta in Hhalf_tick. destruct Hhalf_tick as (Hfetch & Hre & Hstay).
  split; [exact Hfetch |]. split; [exact Hre |]. split; [exact Hstay |].
  split; [exact Hnew |].
  destruct (Z.gtb_spec rewarmLast 0) as [Hpos | Hoff].
  - pose proof (rewarmTail_spec late (lastSegments rewarmLast segments)
                  new2 (list_to_set new2) pr2 k2) as Hspec.
    destruct (rewarmTail late _ new2 _ pr2 k2) as [[fetch pr'] k'].
    destruct Hspec as (I1 & _ & _ & I4 & I5). cbn [fst snd].
    split; [now apply I1 |].
    destruct (in_dec string_dec s (lastSegments rewarmLast segments))
      as [Ht | Ht].
    + destruct (I4 s Ht) as [j' ->]. reflexivity.
    + rewrite (I5 s Ht). exact Hstamp.
  - cbn [fst snd]. now split.
Qed.

Lemma lastSegments_one (segments : list string) (last : string) :
  lastSegments 1 (segments ++ [last]) = [last].
Proof.
  unfold lastSegments. rewrite length_app. cbn [length].
  destruct (Z.gtb_spec (Z.of_nat (length segments + 1)) 1) as [Hlong | Hshort].
  - replace (Z.to_nat (Z.of_nat (length segments + 1) - 1))
      with (length segments + 0)%nat by lia.
    now rewrite skipn_app, Nat.add_0_r, skipn_all, Nat.sub_diag.
  - destruct segments; [reflexivity | cbn [length] in Hshort; lia].
Qed.

(** C5.  With rewarm-last = 1, a tick in which no segment of the
    playlist is absent from the ledger or expired (at any clock reading
    of the tick) fetches exactly the final segment of the playlist,
    once, and stamps its ledger entry with the clock reading taken for
    it, fresh though the old stamp was; no other ledger entry changes.
    This holds for every such tick, whatever the ledger. *)
Theorem rewarm_last_one (clock : Clock) (processedTTL : Z)
    (segments : list string) (last : string) (processed : gmap string Z) :
  (forall x, In x (segments ++ [last]) ->
             exists T, processed !! x = Some T
                       /\ forall j, clock j - T <= processedTTL) ->
  warmStreamOnce clock processedTTL 1 ((segments ++ [last])%list, None) processed
  = (TickFetch [last],
     <[last := clock (length (segments ++ [last]))]> processed).
Proof.
  intros Hfresh. unfold warmStreamOnce, selectSegments.
  rewrite selectNew_all_fresh by exact Hfresh.
  change (1 >? 0) with true. cbv iota.
  rewrite lastSegments_one. cbn [rewarmTail list_to_set].
  destruct (decide (last ∈ (∅ : gset string))) as [Hin | _];
    [now apply not_elem_of_empty in Hin |].
  reflexivity.
Qed.

End LedgerClaims.

(** The claim as stated fails where the rewarm-last policy applies: with
    rewarm-last = 1 the last segment of the playlist is fetched on the
    tick at [T + TTL/2] although its stamp is fresh. *)
Lemma ledger_half_ttl_counterexample :
  ~ (forall (processedTTL rewarmLast T : Z) (segments : list string)
            (processed : gmap string Z) (s : string),
        0 < processedTTL -> In s segments -> processed !! s = Some T ->
        ~ In s (fetchSet (tick_at (T + processedTTL ÷ 2)) processedTTL
                  rewarmLast segments processed)).
Proof.
  intros Hclaim.
  apply (Hclaim 10 1 0 ["a.ts"] {[ "a.ts" := 0 ]} "a.ts");
    [lia | now left | now vm_compute | vm_compute; now left].
Qed.

(** Two ticks in a row over an unchanged playlist: each fetches the
    final segment, and only it. *)
Example rewarm_every_tick :
  let playlist := (["a.ts"; "b.ts"], @None error) in
  let ledger0 : gmap string Z := {[ "a.ts" := 100; "b.ts" := 100 ]} in
  let tick1 := warmStreamOnce (tick_at 105) 10 1 playlist ledger0 in
  let tick2 := warmStreamOnce (tick_at 106) 10 1 playlist tick1.2 in
  tick1.1 = TickFetch ["b.ts"] /\ tick2.1 = TickFetch ["b.ts"]
  /\ tick2.2 !! "b.ts" = Some 106 /\ tick2.2 !! "a.ts" = Some 100.
Proof. repeat split; vm_compute; reflexivity. Qed.

Lemma ledger_ttl_witness :
  0 <= 10 /\ 0 < 1 /\ In "b.ts" ["a.ts"; "b.ts"]
  /\ ({[ "b.ts" := 100 ]} : gmap string Z) !! "b.ts" = Some 100
  /\ ~ In "b.ts" (newSet (tick_at 105) 10 ["a.ts"; "b.ts"] {[ "b.ts" := 100 ]})
  /\ In "b.ts" (fetchSet (tick_at 105) 10 1 ["a.ts"; "b.ts"] {[ "b.ts" := 100 ]})
  /\ ledgerAfter (tick_at 105) 10 1 ["a.ts"; "b.ts"] {[ "b.ts" := 100 ]}
       !! "b.ts" = Some 105
  /\ In "b.ts" (newSet (tick_at 111) 10 ["a.ts"; "b.ts"] {[ "b.ts" := 100 ]})
  /\ ledgerAfter (tick_at 111) 10 1 ["a.ts"; "b.ts"] {[ "b.ts" := 100 ]}
       !! "b.ts" = Some 111.
Proof.
  split; [lia |]. split; [lia |]. split; [right; now left |].
  split; [now vm_compute |].
  assert (Hlast : 0 < 1 /\ In "b.ts" (lastSegments 1 ["a.ts"; "b.ts"]))
    by (split; [lia | vm_compute; now left]).
  destruct (ledger_ttl 10 1 100 1 ["a.ts"; "b.ts"] {[ "b.ts" := 100 ]} "b.ts"
              ltac:(lia) ltac:(lia) ltac:(right; now left)
              ltac:(now vm_compute))
    as ((W1 & _) & W2 & W3 & _ & W5 & _ & W7).
  exact (conj W1 (conj (proj2 W2 Hlast) (conj (W3 Hlast) (conj W5 W7)))).
Defined.

Lemma rewarm_last_one_witness :
  warmStreamOnce (tick_at 105) 10 1 (["a.ts"; "b.ts"], None)
    {[ "a.ts" := 100; "b.ts" := 100 ]}
  = (TickFetch ["b.ts"], <[ "b.ts" := 105 ]> {[ "a.ts" := 100; "b.ts" := 100 ]}).
Proof.
  apply (rewarm_last_one (tick_at 105) 10 ["a.ts"] "b.ts"
           {[ "a.ts" := 100; "b.ts" := 100 ]}).
  intros x [<- | [<- | []]]; exists 100;
    (split; [now vm_compute | intros j; unfold tick_at; lia]).
Defined.

(** ** The playlist parser on the end-to-end scenario *)

(** C6.  The playlist body with the three lines [#EXTM3U], [seg001.ts],
    [seg002.ts] and source URL [https://cdn.example/live/index.m3u8]
    yields exactly [https://cdn.example/live/seg001.ts] and
    [https://cdn.example/live/seg002.ts], in that order, the comment
    line excluded and no error; the same with a last line without
    newline and with CRLF line ends. *)
Theorem parseM3U8_three_lines :
  let m3u8URL := "https://cdn.example/live/index.m3u8" in
  let segments := ["https://cdn.example/live/seg001.ts";
                   "https://cdn.example/live/seg002.ts"] in
  parseM3U8 m3u8URL
    (PlaylistBody ("#EXTM3U" ++ LF ++ "seg001.ts" ++ LF ++ "seg002.ts" ++ LF))
  = (segments, None)
  /\ parseM3U8 m3u8URL
       (PlaylistBody ("#EXTM3U" ++ LF ++ "seg001.ts" ++ LF ++ "seg002.ts"))
     = (segments, None)
  /\ parseM3U8 m3u8URL
       (PlaylistBody ("#EXTM3U" ++ CRLF ++ "seg001.ts" ++ CRLF
                      ++ "seg002.ts" ++ CRLF))
     = (segments, None).
Proof. repeat split; vm_compute; reflexivity. Qed.

(** How the scenario goes through the parser, step by step. *)
Example parseM3U8_three_lines_steps :
  let baseURL :=
    {| url.Scheme := "https"; url.Opaque := ""; url.User := None;
       url.Host := "cdn.example"; url.Path := "/live/index.m3u8";
       url.RawPath := ""; url.OmitHost := false; url.ForceQuery := false;
       url.RawQuery := ""; url.Fragment := ""; url.RawFragment := "" |} in
  url.Parse "https://cdn.example/live/index.m3u8" = inl baseURL
  /\ scanner_lines ("#EXTM3U" ++ LF ++ "seg001.ts" ++ LF ++ "seg002.ts" ++ LF)
     = (["#EXTM3U"; "seg001.ts"; "seg002.ts"], false)
  /\ parseLine baseURL "#EXTM3U" = None
  /\ url.resolvePath "/live/index.m3u8" "seg001.ts" = "/live/seg001.ts"
  /\ parseLine baseURL "seg001.ts" = Some "https://cdn.example/live/seg001.ts".
Proof. repeat split; vm_compute; reflexivity. Qed.

(** ** Error texts *)

Section ErrorTextFacts.
Context {lib : GoLib}.

Lemma cleanString_printable (s : string) :
  all_bytes printable (cleanString s) = true.
Proof. rewrite cleanString_filter. apply all_bytes_filter. Qed.

(** The failure cause of a segment outcome is sanitized. *)
Lemma warmSegment_error_clean (u : string) (res : HTTPResult) (elapsed : Z)
    (err : error) :
  Error (warmSegment u res elapsed) = Some err ->
  all_bytes printable err = true.
Proof.
  destruct res; cbn; intros E; try discriminate;
    injection E as <-; apply cleanString_printable.
Qed.

(** The daemon sanitizes the parse failure it logs. *)
Lemma warmStreamOnce_error_clean (clock : Clock) (ttl rewarmLast : Z)
    (parsed : list string * option error) (processed : gmap string Z)
    (logged : string) :
  tickLogged (warmStreamOnce clock ttl rewarmLast parsed processed).1
  = Some logged ->
  all_bytes printable logged = true.
Proof.
  unfold warmStreamOnce. destruct parsed as [segments [err |]].
  - cbn. intros E. injection E as <-. apply cleanString_printable.
  - destruct (selectSegments clock ttl rewarmLast segments processed)
      as [[[| s ns] pr] k]; discriminate.
Qed.

(** Single-pass mode shows the parse failure as it came. *)
Lemma runOnceMode_parse_error (m3u8URL : string) (segments : list string)
    (err : error) (results : list CacheStatus) (elapsed : Z) :
  runOnceMode m3u8URL (segments, Some err) results elapsed
  = LogError ("M3U8 parse error: " ++ err).
Proof. reflexivity. Qed.

End ErrorTextFacts.

(** C7, the failing input.  For the playlist URL [http://é:bad/x.m3u8]
    the request cannot be built; the error text quotes the URL with its
    two non-ASCII bytes.  Single-pass mode logs the text unchanged, so
    the message shown contains bytes that are not printable; the daemon
    logs the same failure sanitized. *)
Theorem runOnceMode_parse_error_unsanitized :
  let m3u8URL := "http://é:bad/x.m3u8" in
  let err := invalid_port_error m3u8URL ":bad" in
  let parsed := parseM3U8 m3u8URL (PlaylistRequestError err) in
  runOnceMode m3u8URL parsed [] 0 = LogError ("M3U8 parse error: " ++ err)
  /\ all_bytes printable ("M3U8 parse error: " ++ err) = false
  /\ (warmStreamOnce (tick_at 0) 10 0 parsed ∅).1
     = TickParseError (cleanString err)
  /\ all_bytes printable (cleanString err) = true
  /\ cleanString err <> err.
Proof.
  cbv zeta. repeat split; try (vm_compute; reflexivity).
  vm_compute. discriminate.
Qed.

(** ** The cache ratio *)

Section FloatFacts.

(** Shifting right keeps a mantissa non-negative. *)
Lemma shr_1_nonneg (mrs : shr_record) :
  0 <= shr_m mrs -> 0 <= shr_m (shr_1 mrs).
Proof.
  destruct mrs as [m r s]. cbn [shr_m]. intros Hm.
  destruct m as [| [p | p |] | p]; cbn; lia.
Qed.

Lemma iter_shr_1_nonneg (p : positive) :
  forall mrs, 0 <= shr_m mrs -> 0 <= shr_m (SpecFloat.iter_pos shr_1 p mrs).
Proof.
  induction p as [p IH | p IH |]; intros mrs Hm; cbn [SpecFloat.iter_pos].
  - apply IH, IH, shr_1_nonneg, Hm.
  - apply IH, IH, Hm.
  - apply shr_1_nonneg, Hm.
Qed.

Lemma shr_fexp_nonneg (m e : Z) (l : location) :
  0 <= m -> 0 <= shr_m (shr_fexp prec64 emax64 m e l).1.
Proof.
  intros Hm. unfold shr_fexp, shr.
  assert (H0 : 0 <= shr_m (shr_record_of_loc m l))
    by (destruct l as [| []]; exact Hm).
  destruct (fexp prec64 emax64 (Zdigits2 m + e) - e) as [| p | p];
    cbn [fst]; [exact H0 | | exact H0].
  now apply iter_shr_1_nonneg.
Qed.

Lemma round_nearest_even_nonneg (m : Z) (l : location) :
  0 <= m -> 0 <= round_nearest_even m l.
Proof.
  intros Hm. destruct l as [| []]; cbn; try lia.
  destruct (Z.even m); lia.
Qed.

(** Rounding a non-negative mantissa never yields NaN. *)
Lemma binary_round_aux_not_nan (sx : bool) (mx ex : Z) (lx : location) :
  0 <= mx -> binary_round_aux prec64 emax64 sx mx ex lx <> S754_nan.
Proof.
  intros Hm. unfold binary_round_aux.
  pose proof (shr_fexp_nonneg mx ex lx Hm) as H1.
  destruct (shr_fexp prec64 emax64 mx ex lx) as [mrs' e'].
  cbn [fst] in H1.
  pose proof (shr_fexp_nonneg
                (round_nearest_even (shr_m mrs') (loc_of_shr_record mrs'))
                e' loc_Exact (round_nearest_even_nonneg _ _ H1)) as H2.
  destruct (shr_fexp prec64 emax64 _ e' loc_Exact) as [mrs'' e''].
  cbn [fst] in H2.
  destruct (shr_m mrs'') as [| p | p]; [discriminate | | lia].
  destruct (e'' <=? emax64 - prec64); discriminate.
Qed.

Lemma pow2_exponent_pos (k : Z) : 1 < 2 ^ k -> 0 < k.
Proof.
  intros Hk. destruct (Z.lt_trichotomy k 0) as [Hneg | [-> | Hpos]].
  - rewrite Z.pow_neg_r in Hk by assumption. lia.
  - cbn in Hk. lia.
  - exact Hpos.
Qed.

Lemma pow2_halve (k : Z) : 0 < k -> 2 ^ k = 2 * 2 ^ (k - 1).
Proof.
  intros Hk. rewrite <- Z.pow_succ_r by lia. f_equal. lia.
Qed.

Lemma digits2_pos_bound (m : positive) :
  forall k, Zpos m < 2 ^ k -> Zpos (digits2_pos m) <= k.
Proof.
  induction m as [p IH | p IH |]; intros k Hk.
  - assert (Hpos : 0 < k) by (apply pow2_exponent_pos; lia).
    cbn [digits2_pos]. rewrite Pos2Z.inj_succ.
    specialize (IH (k - 1)). rewrite (pow2_halve k Hpos) in Hk. lia.
  - assert (Hpos : 0 < k) by (apply pow2_exponent_pos; lia).
    cbn [digits2_pos]. rewrite Pos2Z.inj_succ.
    specialize (IH (k - 1)). rewrite (pow2_halve k Hpos) in Hk. lia.
  - assert (Hpos : 0 < k) by (apply pow2_exponent_pos; lia).
    cbn. lia.
Qed.

Lemma digits2_pos_iter_xO (d m : positive) :
  Zpos (digits2_pos (Pos.iter xO m d)) = Zpos (digits2_pos m) + Zpos d.
Proof.
  induction d as [| d IH] using Pos.peano_ind.
  - cbn. lia.
  - rewrite Pos.iter_succ. cbn [digits2_pos]. lia.
Qed.

(** A mantissa of 53 digits with an exponent in range is a float
    already: rounding leaves it alone. *)
Lemma binary_round_aux_exact (sx : bool) (m : positive) (e : Z) :
  Zpos (digits2_pos m) = prec64 -> -1074 <= e <= 971 ->
  binary_round_aux prec64 emax64 sx (Zpos m) e loc_Exact = S754_finite sx m e.
Proof.
  intros Hd He.
  assert (Hshr : shr_fexp prec64 emax64 (Zpos m) e loc_Exact
                 = ({| shr_m := Zpos m; shr_r := false; shr_s := false |}, e)).
  { unfold shr_fexp, fexp, emin, Zdigits2. rewrite Hd.
    unfold prec64, emax64 in *.
    replace (Z.max (53 + e - 53) (3 - 1024 - 53) - e) with 0 by lia.
    reflexivity. }
  unfold binary_round_aux. rewrite Hshr. cbn [shr_m loc_of_shr_record
    round_nearest_even]. rewrite Hshr. cbn [shr_m].
  unfold prec64, emax64.
  destruct (Z.leb_spec e (1024 - 53)); [reflexivity | lia].
Qed.

(** An integer between 1 and 2^53 converts to a finite, non-zero
    float. *)
Lemma float64_of_int_finite (n : Z) :
  0 < n < 2 ^ 53 -> exists m e, float64_of_int n = S754_finite false m e.
Proof.
  intros Hn. destruct n as [| p | p]; try lia.
  unfold float64_of_int, binary_normalize, binary_round.
  pose proof (digits2_pos_bound p 53 ltac:(lia)) as Hd.
  assert (0 < Zpos (digits2_pos p)) by lia.
  unfold fexp, emin, shl_align, prec64, emax64.
  replace (Z.max (Zpos (digits2_pos p) + 0 - 53) (3 - 1024 - 53))
    with (Zpos (digits2_pos p) - 53) by lia.
  destruct (Zpos (digits2_pos p) - 53 - 0) as [| d | d] eqn:Hsub; try lia.
  - eexists _, _. apply binary_round_aux_exact; unfold prec64; lia.
  - eexists _, _. apply binary_round_aux_exact.
    + rewrite digits2_pos_iter_xO. unfold prec64. lia.
    + lia.
Qed.

Lemma float64_of_int_nonneg_cases (n : Z) :
  0 <= n < 2 ^ 53 ->
  (n = 0 /\ float64_of_int n = S754_zero false)
  \/ exists m e, float64_of_int n = S754_finite false m e.
Proof.
  intros Hn. destruct (Z.eq_dec n 0) as [-> | Hne].
  - left. now split.
  - right. apply float64_of_int_finite. lia.
Qed.

(** The quotient of two finite floats is not NaN. *)
Lemma float64_div_finite_not_nan (sx sy : bool) (mx my : positive) (ex ey : Z) :
  float64_div (S754_finite sx mx ex) (S754_finite sy my ey) <> S754_nan.
Proof.
  unfold float64_div, SFdiv, SFdiv_core_binary.
  set (s := ex - ey - _).
  set (m' := match s with Z0 => Zpos mx | Zpos _ => Z.shiftl (Zpos mx) s
                        | Zneg _ => 0 end).
  assert (Hm' : 0 <= m').
  { subst m'. destruct s; try lia. apply Z.shiftl_nonneg. lia. }
  pose proof (Z.div_pos m' (Zpos my) Hm' ltac:(lia)) as Hq.
  unfold Z.div in Hq.
  destruct (Z.div_eucl m' (Zpos my)) as [q r]. cbn [fst] in Hq.
  now apply binary_round_aux_not_nan.
Qed.

(** Times one hundred: NaN only from NaN. *)
Lemma float64_mul_100_not_nan (x : spec_float) :
  x <> S754_nan -> float64_mul x (float64_of_int 100) <> S754_nan.
Proof.
  intros Hx.
  change (float64_of_int 100) with (S754_finite false 7036874417766400 (-46)).
  destruct x as [sx | sx | | sx mx ex]; try discriminate; [congruence |].
  unfold float64_mul, SFmul. now apply binary_round_aux_not_nan.
Qed.

End FloatFacts.

(** C3 (as amended).  In single-pass mode the reported cache ratio is
    [float64(hits) / float64(total) * 100] in binary64 arithmetic, and
    nothing guards the case of no segments: for counts below 2^53 the
    ratio is NaN exactly when the total and the hit count are both 0. *)
Theorem cacheRatio_nan_iff (result : WarmResult) :
  0 <= CachedFiles result < 2 ^ 53 ->
  0 <= TotalFiles result < 2 ^ 53 ->
  sRatio (PrintResults result)
  = float64_mul
      (float64_div (float64_of_int (sHit (PrintResults result)))
                   (float64_of_int (sTotal (PrintResults result))))
      (float64_of_int 100)
  /\ (sRatio (PrintResults result) = S754_nan <->
      TotalFiles result = 0 /\ CachedFiles result = 0).
Proof.
  intros Hc Ht. split; [reflexivity |].
  cbn [PrintResults sRatio]. unfold cacheRatio.
  destruct (float64_of_int_nonneg_cases _ Hc) as [[Hc0 Ec] | (mc & ec & Ec)];
    destruct (float64_of_int_nonneg_cases _ Ht) as [[Ht0 Et] | (mt & et & Et)];
    rewrite Ec, Et.
  - split; [now intros _ | intros _; reflexivity].
  - split; [| intros [Ht0 _]; rewrite Ht0 in Et; discriminate].
    intros Hnan. exfalso. revert Hnan.
    apply float64_mul_100_not_nan. discriminate.
  - split; [| intros [_ Hc0]; rewrite Hc0 in Ec; discriminate].
    intros Hnan. exfalso. revert Hnan.
    apply float64_mul_100_not_nan. discriminate.
  - split; [| intros [Ht0 _]; rewrite Ht0 in Et; discriminate].
    intros Hnan. exfalso. revert Hnan.
    apply float64_mul_100_not_nan, float64_div_finite_not_nan.
Qed.

(** 85 hits out of 120: the ratio is the float nearest to 70.8333... *)
Example cacheRatio_85_of_120 :
  cacheRatio {| M3U8URL := "https://example.com/playlist.m3u8";
                TotalFiles := 120; CachedFiles := 85; Errors := [];
                WDuration := 0; Details := [] |}
  = S754_finite false 4984452712584534 (-46).
Proof. vm_compute. reflexivity. Qed.

Lemma cacheRatio_nan_iff_witness :
  let result := {| M3U8URL := "https://example.com/playlist.m3u8";
                   TotalFiles := 120; CachedFiles := 85; Errors := [];
                   WDuration := 0; Details := [] |} in
  0 <= 85 < 2 ^ 53 /\ 0 <= 120 < 2 ^ 53
  /\ (sRatio (PrintResults result) = S754_nan <->
      TotalFiles result = 0 /\ CachedFiles result = 0).
Proof.
  cbv zeta. split; [lia |]. split; [lia |].
  apply (cacheRatio_nan_iff
           {| M3U8URL := "https://example.com/playlist.m3u8";
              TotalFiles := 120; CachedFiles := 85; Errors := [];
              WDuration := 0; Details := [] |}); cbn; lia.
Defined.

(** The claim as stated fails: a playlist without segments has a
    summary whose total is 0, and its cache ratio is NaN. *)
Lemma cacheRatio_unguarded_counterexample :
  let m3u8URL := "https://cdn.example/live/index.m3u8" in
  let parsed := parseM3U8 m3u8URL (PlaylistBody ("#EXTM3U" ++ LF)) in
  exists summary,
    runOnceMode m3u8URL parsed [] 0 = Results summary
    /\ sTotal summary = 0 /\ sRatio summary = S754_nan.
Proof.
  cbv zeta. eexists. split; [vm_compute; reflexivity |].
  split; reflexivity.
Qed.

(** * Further properties of the code *)

(** ** [generateUUID] *)

Section UUIDFacts.

Lemma is_upper_hex_hexHi (c : ascii) : is_upper_hex (hexHi c) = true.
Proof. destruct c as [[] [] [] [] [] [] [] []]; vm_compute; reflexivity. Qed.

Lemma is_upper_hex_hexLo (c : ascii) : is_upper_hex (hexLo c) = true.
Proof. destruct c as [[] [] [] [] [] [] [] []]; vm_compute; reflexivity. Qed.

Lemma hexHi_setVersion (c : ascii) : hexHi (setVersion c) = "4"%char.
Proof. destruct c as [[] [] [] [] [] [] [] []]; vm_compute; reflexivity. Qed.

Lemma hexHi_setVariant (c : ascii) :
  url.byte_in (hexHi (setVariant c)) "89AB" = true.
Proof. destruct c as [[] [] [] [] [] [] [] []]; vm_compute; reflexivity. Qed.

(** Setting the version and the variant keeps the other bits. *)
Lemma hexLo_setVersion (c : ascii) : hexLo (setVersion c) = hexLo c.
Proof. destruct c as [[] [] [] [] [] [] [] []]; vm_compute; reflexivity. Qed.

Lemma hexLo_setVariant (c : ascii) : hexLo (setVariant c) = hexLo c.
Proof. destruct c as [[] [] [] [] [] [] [] []]; vm_compute; reflexivity. Qed.

(** X1.  Whatever 16 bytes the random source delivers, [generateUUID]
    returns a string of the shape [XXXXXXXX-XXXX-4XXX-YXXX-XXXXXXXXXXXX]:
    36 characters, hyphens at 8, 13, 18 and 23, the version digit 4, the
    variant digit [Y] one of 8, 9, A, B, and upper-case hexadecimal
    digits elsewhere. *)
Theorem generateUUID_is_v4 (random : list ascii) :
  length random = 16%nat ->
  is_uuid_v4 (generateUUID random) = true
  /\ String.length (generateUUID random) = 36%nat.
Proof.
  intros Hlen.
  do 16 (destruct random as [| ? random]; [discriminate Hlen |]).
  destruct random; [| discriminate Hlen].
  split; [| reflexivity].
  unfold generateUUID, is_uuid_v4, slice.
  cbn -[hexHi hexLo setVersion setVariant url.byte_in is_upper_hex Ascii.eqb].
  lazy beta iota zeta delta [String.append uuid_shape Nat.eqb orb].
  rewrite ?is_upper_hex_hexHi, ?is_upper_hex_hexLo, hexHi_setVersion,
    hexHi_setVariant.
  reflexivity.
Qed.

End UUIDFacts.

Lemma generateUUID_is_v4_witness :
  length (list_ascii_of_string "0123456789abcdef") = 16%nat
  /\ is_uuid_v4 (generateUUID (list_ascii_of_string "0123456789abcdef")) = true.
Proof.
  split; [reflexivity |].
  apply (generateUUID_is_v4 (list_ascii_of_string "0123456789abcdef")).
  reflexivity.
Defined.

(** ** [cleanString] on the bytes *)

Section CleanStringAlgebra.

Lemma filter_bytes_app (p : ascii -> bool) (a b : string) :
  filter_bytes p (a ++ b) = (filter_bytes p a ++ filter_bytes p b)%string.
Proof.
  induction a as [| c a IH]; [reflexivity |].
  change ((String c a ++ b)%string) with (String c (a ++ b)).
  cbn [filter_bytes]. rewrite IH. now destruct (p c).
Qed.

Lemma filter_bytes_length (p : ascii -> bool) (s : string) :
  (String.length (filter_bytes p s) <= String.length s)%nat.
Proof.
  induction s as [| c s IH]; [reflexivity |].
  cbn [filter_bytes]. destruct (p c); cbn [String.length]; lia.
Qed.

Lemma filter_bytes_fixed (p : ascii -> bool) (s : string) :
  filter_bytes p s = s -> all_bytes p s = true.
Proof.
  induction s as [| c s IH]; [reflexivity |].
  cbn [filter_bytes all_bytes]. destruct (p c) eqn:P.
  - intros E. injection E as E. now rewrite IH.
  - intros E. pose proof (filter_bytes_length p s) as L.
    rewrite E in L. cbn [String.length] in L. lia.
Qed.

(** X2.  [cleanString] works byte by byte although it decodes runes: it
    distributes over concatenation (also when the cut falls inside a
    multi-byte rune), it never lengthens a string, and the strings it
    leaves unchanged are exactly those made of printable ASCII, tab,
    newline and carriage return. *)
Theorem cleanString_bytewise (a b : string) :
  cleanString (a ++ b) = (cleanString a ++ cleanString b)%string
  /\ (String.length (cleanString a) <= String.length a)%nat
  /\ (cleanString a = a <-> all_bytes printable a = true).
Proof.
  rewrite !cleanString_filter. split; [apply filter_bytes_app |].
  split; [apply filter_bytes_length |].
  split; [apply filter_bytes_fixed | apply filter_bytes_all].
Qed.

End CleanStringAlgebra.

(** A rune cut in two: the euro sign E2 82 AC. *)
Example cleanString_split_rune :
  let e2 := String (byte_of 226) EmptyString in
  let rest := String (byte_of 130) (String (byte_of 172) EmptyString) in
  cleanString (("a" ++ e2) ++ (rest ++ "b")) = "ab"
  /\ (cleanString ("a" ++ e2) ++ cleanString (rest ++ "b"))%string = "ab".
Proof. split; vm_compute; reflexivity. Qed.

(** ** The classifier in full *)

Section ClassifierFull.
Context {lib : GoLib}.

Lemma hasIndicator_indicates (value : string) :
  is_ascii value = true ->
  hasIndicator value hitIndicators = indicates value.
Proof. intros Ha. unfold indicates. now apply hasIndicator_ascii. Qed.

Lemma scanCacheHeaders_spec (h : Header) (names : list string) :
  (forall name, In name names -> is_ascii (Header_Get h name) = true) ->
  scanCacheHeaders h names = true <->
  exists name, In name names /\ indicates (Header_Get h name) = true.
Proof.
  induction names as [| name rest IH]; intros Hascii.
  - cbn. split; [discriminate | intros (x & [] & _)].
  - cbn [scanCacheHeaders].
    rewrite hasIndicator_indicates by (apply Hascii; now left).
    destruct (String.eqb_spec (Header_Get h name) "") as [E | E]; cbn [negb andb].
    + rewrite IH by (intros x Hx; apply Hascii; now right).
      split.
      * intros (x & Hx & Hi). exists x. split; [now right | exact Hi].
      * intros (x & [<- | Hx] & Hi); [| now exists x].
        rewrite E in Hi. discriminate Hi.
    + destruct (indicates (Header_Get h name)) eqn:I.
      * split; [| reflexivity]. intros _. exists name. split; [now left | exact I].
      * rewrite IH by (intros x Hx; apply Hascii; now right).
        split.
        -- intros (x & Hx & Hi). exists x. split; [now right | exact Hi].
        -- intros (x & [<- | Hx] & Hi); [congruence | now exists x].
Qed.

(** X3.  For a response whose seven cache headers have ASCII values,
    the classifier answers hit exactly when the first value of one of
    the seven headers contains [hit] or [cached] in any letter case
    (whatever the other headers say, so [X-Cache: MISS] does not veto),
    or the first [Age] value is neither empty nor ["0"]. *)
Theorem detectCacheHit_spec (h : Header) :
  (forall name, In name cacheHeaders -> is_ascii (Header_Get h name) = true) ->
  detectCacheHit h = true <->
  (exists name, In name cacheHeaders /\ indicates (Header_Get h name) = true)
  \/ (Header_Get h "Age" <> "" /\ Header_Get h "Age" <> "0").
Proof.
  intros Hascii. unfold detectCacheHit.
  pose proof (scanCacheHeaders_spec h cacheHeaders Hascii) as Hscan.
  destruct (scanCacheHeaders h cacheHeaders).
  - split; [| reflexivity]. intros _. left. now apply Hscan.
  - cbv zeta.
    destruct (String.eqb_spec (Header_Get h "Age") "") as [E0 | E0];
      destruct (String.eqb_spec (Header_Get h "Age") "0") as [E1 | E1];
      cbn [negb andb]; split; try discriminate; try tauto;
      intros [Hex | [? ?]]; try contradiction;
      apply Hscan in Hex; discriminate.
Qed.

End ClassifierFull.

Lemma detectCacheHit_spec_witness :
  let h : Header := {[ "X-Cache" := ["MISS"];
                       "X-Served-By" := ["cache-fra-HITachi-1"] ]} in
  (forall name, In name cacheHeaders -> is_ascii (Header_Get h name) = true)
  /\ detectCacheHit (lib := ascii_lib) h = true.
Proof.
  cbv zeta.
  assert (Hascii : forall name, In name cacheHeaders ->
            is_ascii (Header_Get
                        ({[ "X-Cache" := ["MISS"];
                            "X-Served-By" := ["cache-fra-HITachi-1"] ]} : Header)
                        name) = true).
  { intros name Hin. cbn in Hin.
    repeat (destruct Hin as [<- | Hin]; [now vm_compute |]). contradiction. }
  split; [exact Hascii |].
  apply (detectCacheHit_spec (lib := ascii_lib) _ Hascii).
  left. exists "X-Served-By". split; [cbn; tauto | now vm_compute].
Defined.

(** ** More about the worker pool *)

Section PoolMore.
Context {lib : GoLib}.

Ltac step_inversion Hstep :=
  unfold pool_step in Hstep;
  repeat match type of Hstep with
         | context [match ?x with _ => _ end] =>
             let E := fresh "E" in destruct x eqn:E; try discriminate Hstep
         end;
  injection Hstep as <-.

Lemma sent_insert (ws : list wstate) (i : nat) (w : wstate) (r : CacheStatus) :
  In r (flat_map sent (<[i := w]> ws)) ->
  In r (sent w) \/ In r (flat_map sent ws).
Proof.
  revert i. induction ws as [| x ws IH]; intros i Hin; [now right |].
  destruct i as [| i].
  - change (<[0%nat := w]> (x :: ws)) with (w :: ws) in Hin.
    cbn [flat_map] in *. apply in_app_or in Hin as [Hin | Hin];
      [now left | right; apply in_or_app; now right].
  - change (<[S i := w]> (x :: ws)) with (x :: <[i := w]> ws) in Hin.
    cbn [flat_map] in *. apply in_app_or in Hin as [Hin | Hin].
    + right. apply in_or_app. now left.
    + destruct (IH i Hin); [now left | right; apply in_or_app; now right].
Qed.

Lemma sent_lookup (ws : list wstate) (i : nat) (r : CacheStatus) :
  ws !! i = Some (WSend r) -> In r (flat_map sent ws).
Proof.
  revert i. induction ws as [| x ws IH]; intros [| i] Hi; try discriminate.
  - injection Hi as ->. now left.
  - cbn [flat_map]. apply in_or_app. right. now apply (IH i).
Qed.

(** Every outcome in a call was made by [warmSegment]: a property that
    [warmSegment] gives all its results holds of all outcomes. *)
Lemma pool_step_outcomes (Q : CacheStatus -> Prop) (a : action) (p p' : pool) :
  (forall u res elapsed, Q (warmSegment u res elapsed)) ->
  (forall r, In r (outcomes p) -> Q r) ->
  pool_step a p = Some p' ->
  forall r, In r (outcomes p') -> Q r.
Proof.
  intros HQ Hall Hstep r Hin. unfold outcomes in *.
  assert (Hw : forall x, In x (flat_map sent (workers p)) -> Q x)
    by (intros x Hx; apply Hall, in_or_app; now left).
  assert (Hr : forall x, In x (results p) -> Q x)
    by (intros x Hx; apply Hall, in_or_app; right; apply in_or_app; now left).
  assert (Ha : forall x, In x (allResults p) -> Q x)
    by (intros x Hx; apply Hall, in_or_app; right; apply in_or_app; now right).
  destruct a; step_inversion Hstep; subst; cbn in Hin; unfold set_worker in Hin;
    repeat (apply in_app_or in Hin as [Hin | Hin]);
    try (apply sent_insert in Hin as [Hin | Hin]; cbn in Hin);
    repeat match goal with
           | Hx : _ \/ _ |- _ => destruct Hx as [Hx | Hx]
           | Hx : False |- _ => contradiction
           end;
    subst; auto.
  all: cbn in Hin;
    repeat match goal with
           | Hx : _ \/ _ |- _ => destruct Hx as [Hx | Hx]
           | Hx : False |- _ => contradiction
           end;
    subst; auto.
  all: try (apply Hr; cbn; tauto).
  all: try (match goal with
            | E : @lookup _ _ _ _ _ (workers _) = Some (WSend _) |- _ =>
                apply Hw; eapply sent_lookup; exact E
            end).
Qed.

Lemma pool_run_outcomes (Q : CacheStatus -> Prop) (schedule : list action) :
  (forall u res elapsed, Q (warmSegment u res elapsed)) ->
  forall p p', (forall r, In r (outcomes p) -> Q r) ->
               pool_run schedule p = Some p' ->
               forall r, In r (outcomes p') -> Q r.
Proof.
  intros HQ. induction schedule as [| a rest IH]; intros p p' Hall Hrun;
    cbn in Hrun.
  - now injection Hrun as <-.
  - destruct (pool_step a p) as [q |] eqn:Hstep; [| discriminate].
    eapply IH; [| exact Hrun]. eapply pool_step_outcomes; eauto.
Qed.

Lemma pool_init_outcomes (maxWorkers : Z) (segments : list string)
    (stats : gmap string CacheStatus) :
  outcomes (pool_init maxWorkers segments stats) = [].
Proof.
  unfold outcomes. cbn. rewrite app_nil_r.
  induction (Z.to_nat maxWorkers) as [| n IH]; [reflexivity | exact IH].
Qed.

Lemma warmSegment_failure_clean (u : string) (res : HTTPResult) (elapsed : Z) :
  failure_is_clean (warmSegment u res elapsed).
Proof.
  intros err E. destruct res; cbn in *; try discriminate;
    injection E as <-; (split; [apply cleanString_printable | now repeat split]).
Qed.

Lemma returned_outcomes (maxWorkers : Z) (segments : list string)
    (stats : gmap string CacheStatus) (schedule : list action)
    (out : list CacheStatus) :
  warmSegments maxWorkers segments stats schedule = Some out ->
  exists p, pool_run schedule (pool_init maxWorkers segments stats) = Some p
            /\ returned p = true /\ out = allResults p.
Proof.
  unfold warmSegments. intros Hout.
  destruct (pool_run schedule _) as [p |]; [| discriminate].
  destruct (returned p) eqn:Hret; [| discriminate].
  injection Hout as <-. now exists p.
Qed.

(** X4.  Every outcome that [warmSegments] returns was made by
    [warmSegment] for its URL; so a failed outcome has a sanitized
    cause (only printable ASCII, tab, newline, carriage return), is no
    hit, and has status code 0 and no headers. *)
Theorem warmSegments_failures_clean
    (maxWorkers : Z) (segments : list string) (stats : gmap string CacheStatus)
    (schedule : list action) (out : list CacheStatus) :
  warmSegments maxWorkers segments stats schedule = Some out ->
  forall r, In r out ->
    (exists res elapsed, r = warmSegment (URL r) res elapsed)
    /\ failure_is_clean r.
Proof.
  intros Hout r Hin.
  destruct (returned_outcomes _ _ _ _ _ Hout) as (p & Hrun & _ & ->).
  apply (pool_run_outcomes
           (fun r => (exists res elapsed, r = warmSegment (URL r) res elapsed)
                     /\ failure_is_clean r)
           schedule) with (p := pool_init maxWorkers segments stats) (p' := p).
  - intros u res elapsed. split; [| apply warmSegment_failure_clean].
    exists res, elapsed. now rewrite URL_warmSegment.
  - rewrite pool_init_outcomes. intros x [].
  - exact Hrun.
  - unfold outcomes. apply in_or_app. right. apply in_or_app. now right.
Qed.

End PoolMore.

Lemma warmSegments_failures_clean_witness :
  let schedule :=
    [ASend; ACloseJobs; ATake 0;
     AFinish 0 (RequestError (String (byte_of 27) "[2J dial tcp")) 7;
     AEmit 0; AExit 0; ACloseResults; ACollect; AReturn] in
  exists out,
    warmSegments (lib := ascii_lib) 1 ["a.ts"] ∅ schedule = Some out
    /\ map Error out = [Some "[2J dial tcp"]
    /\ forall r, In r out -> failure_is_clean r.
Proof.
  cbv zeta. eexists. split; [vm_compute; reflexivity |].
  split; [vm_compute; reflexivity |].
  intros r Hin.
  refine (proj2 (warmSegments_failures_clean (lib := ascii_lib) 1 ["a.ts"] ∅
                   [ASend; ACloseJobs; ATake 0;
                    AFinish 0 (RequestError (String (byte_of 27) "[2J dial tcp")) 7;
                    AEmit 0; AExit 0; ACloseResults; ACollect; AReturn]
                   _ _ r Hin)).
  vm_compute; reflexivity.
Defined.

Section PoolEdges.
Context {lib : GoLib}.

Ltac step_inversion Hstep :=
  unfold pool_step in Hstep;
  repeat match type of Hstep with
         | context [match ?x with _ => _ end] =>
             let E := fresh "E" in destruct x eqn:E; try discriminate Hstep
         end;
  injection Hstep as <-.

(** Without workers nothing is ever taken, so nothing is produced. *)
Lemma pool_step_no_worker (a : action) (p p' : pool) :
  workers p = [] /\ results p = [] /\ allResults p = [] ->
  pool_step a p = Some p' ->
  workers p' = [] /\ results p' = [] /\ allResults p' = [].
Proof.
  intros (Hw & Hr & Ha) Hstep.
  destruct a; unfold pool_step in Hstep; rewrite ?Hw, ?Hr in Hstep;
    cbn in Hstep;
    repeat match type of Hstep with
           | context [match ?x with _ => _ end] =>
               destruct x; try discriminate Hstep
           end;
    injection Hstep as <-; cbn; auto.
Qed.

Lemma pool_run_no_worker (schedule : list action) :
  forall p p',
    workers p = [] /\ results p = [] /\ allResults p = [] ->
    pool_run schedule p = Some p' ->
    workers p' = [] /\ results p' = [] /\ allResults p' = [].
Proof.
  induction schedule as [| a rest IH]; intros p p' Hinv Hrun; cbn in Hrun.
  - now injection Hrun as <-.
  - destruct (pool_step a p) as [q |] eqn:Hstep; [| discriminate].
    eapply IH; [| exact Hrun]. eapply pool_step_no_worker; eauto.
Qed.

(** X5.  With [maxWorkers <= 0] no worker is started: [warmSegments]
    still returns (the buffered channel takes all the jobs), and under
    every schedule it returns no outcome at all, however many segments
    it was given. *)
Theorem warmSegments_no_workers
    (maxWorkers : Z) (segments : list string) (stats : gmap string CacheStatus) :
  maxWorkers <= 0 ->
  (forall schedule out,
      warmSegments maxWorkers segments stats schedule = Some out -> out = [])
  /\ exists schedule,
       warmSegments maxWorkers segments stats schedule = Some [].
Proof.
  intros HN.
  assert (Hinit : workers (pool_init maxWorkers segments stats) = []
                  /\ results (pool_init maxWorkers segments stats) = []
                  /\ allResults (pool_init maxWorkers segments stats) = []).
  { cbn. replace (Z.to_nat maxWorkers) with 0%nat by lia. now repeat split. }
  assert (Hall : forall schedule out,
             warmSegments maxWorkers segments stats schedule = Some out ->
             out = []).
  { intros schedule out Hout.
    destruct (returned_outcomes _ _ _ _ _ Hout) as (p & Hrun & _ & ->).
    now destruct (pool_run_no_worker _ _ _ Hinit Hrun) as (_ & _ & Ha). }
  split; [exact Hall |].
  destruct (pool_can_return maxWorkers segments _ _ (Nat.le_refl _)
              (pool_init_inv maxWorkers segments stats))
    as (schedule & p & Hrun & Hret).
  exists schedule.
  assert (Hout : warmSegments maxWorkers segments stats schedule
                 = Some (allResults p))
    by (unfold warmSegments; now rewrite Hrun, Hret).
  rewrite Hout. f_equal. now apply (Hall schedule).
Qed.

(** With one worker the segments stay in line. *)
Lemma pool_step_pipeline (a : action) (p p' : pool) :
  length (workers p) = 1%nat ->
  pool_step a p = Some p' ->
  length (workers p') = 1%nat /\ pipeline p' = pipeline p.
Proof.
  intros Hone Hstep. unfold pipeline.
  destruct (workers p) as [| w [| w' ws]] eqn:Hws; try discriminate Hone.
  assert (Hlook : forall i x, [w] !! i = Some x -> i = 0%nat /\ x = w).
  { intros [| i] x Hx; [injection Hx as ->; now split | discriminate Hx]. }
  destruct a; unfold pool_step in Hstep; rewrite ?Hws in Hstep;
    repeat match type of Hstep with
           | context [match ?x with _ => _ end] =>
               let E := fresh "E" in destruct x eqn:E; try discriminate Hstep
           end;
    injection Hstep as <-; cbn; unfold set_worker; rewrite ?Hws;
    repeat match goal with
           | E : [w] !! _ = Some _ |- _ =>
               apply Hlook in E; destruct E as [-> <-]
           end;
    cbn; rewrite ?map_app, ?URL_warmSegment, <- ?app_assoc; cbn;
    (split; [reflexivity | try reflexivity]).
  all: rewrite ?app_nil_r; try reflexivity.
Qed.

Lemma pool_run_pipeline (schedule : list action) :
  forall p p',
    length (workers p) = 1%nat ->
    pool_run schedule p = Some p' ->
    pipeline p' = pipeline p.
Proof.
  induction schedule as [| a rest IH]; intros p p' Hone Hrun; cbn in Hrun.
  - now injection Hrun as <-.
  - destruct (pool_step a p) as [q |] eqn:Hstep; [| discriminate].
    destruct (pool_step_pipeline _ _ _ Hone Hstep) as [Hone' <-].
    now apply IH.
Qed.

(** X6.  With a single worker ([maxWorkers = 1]) the outcomes come back
    in the order of the input list, under every schedule. *)
Theorem warmSegments_single_worker_order
    (segments : list string) (stats : gmap string CacheStatus)
    (schedule : list action) (out : list CacheStatus) :
  warmSegments 1 segments stats schedule = Some out ->
  map URL out = segments.
Proof.
  intros Hout.
  destruct (returned_outcomes _ _ _ _ _ Hout) as (p & Hrun & Hret & ->).
  pose proof (pool_run_pipeline schedule (pool_init 1 segments stats) p
                eq_refl Hrun) as Hpipe.
  pose proof (pool_run_inv _ _ _ _ _ (pool_init_inv 1 segments stats) Hrun)
    as Hinv.
  destruct (pool_returned_results 1 segments p ltac:(lia) Hinv Hret)
    as [_ Hlen].
  unfold pipeline in Hpipe. cbn in Hpipe.
  change (flat_map held (repeat WIdle (Z.to_nat 1))) with (@nil string)
    in Hpipe.
  cbn [app] in Hpipe.
  pose proof (f_equal (@length string) Hpipe) as Hsplit.
  rewrite length_app, length_map in Hsplit.
  destruct (map URL (results p) ++ held_all (workers p) ++ jobs p ++ pending p)%list
    as [| x rest] eqn:Hrest.
  - now rewrite app_nil_r in Hpipe.
  - cbn [length] in Hsplit. lia.
Qed.

End PoolEdges.

Lemma warmSegments_no_workers_witness :
  -1 <= 0
  /\ forall schedule out,
      warmSegments (lib := ascii_lib) (-1) ["a.ts"; "b.ts"] ∅ schedule
      = Some out -> out = [].
Proof.
  split; [lia |].
  apply (warmSegments_no_workers (lib := ascii_lib) (-1) ["a.ts"; "b.ts"] ∅).
  lia.
Defined.

Lemma warmSegments_single_worker_order_witness :
  let ok := ResponseOK 200 ∅ in
  let schedule :=
    [ASend; ATake 0; ASend; ACloseJobs; AFinish 0 ok 5; AEmit 0; ATake 0;
     ACollect; AFinish 0 ok 9; AEmit 0; AExit 0; ACloseResults; ACollect;
     AReturn] in
  exists out,
    warmSegments (lib := ascii_lib) 1 ["a.ts"; "b.ts"] ∅ schedule = Some out
    /\ map URL out = ["a.ts"; "b.ts"].
Proof.
  cbv zeta. eexists. split; [vm_compute; reflexivity |].
  apply (warmSegments_single_worker_order (lib := ascii_lib) ["a.ts"; "b.ts"] ∅
           [ASend; ATake 0; ASend; ACloseJobs; AFinish 0 (ResponseOK 200 ∅) 5;
            AEmit 0; ATake 0; ACollect; AFinish 0 (ResponseOK 200 ∅) 9;
            AEmit 0; AExit 0; ACloseResults; ACollect; AReturn]).
  vm_compute. reflexivity.
Defined.
